(** * bdf::Serializer (src/Serializer.h): a shallow embedding and its properties

    The header defines a byte-order transform ([swapBytes], [Swapper]), a
    primitive codec (the member operators [<<] and [>>] of [Serializer]) and
    composite codecs for [std::string], [std::pair], [std::vector] and
    [std::map], all resolved by overloading.  The stream is a template
    parameter; it is modelled as an in-memory byte queue. *)

From Stdlib Require Import ZArith List Bool Lia Sorted.
From stdpp Require Import base option list gmap.
From coqutil Require Import Byte Word.LittleEndianList.
Import ListNotations.

Local Open Scope Z_scope.

(** ** Compile-time environment *)

(** The anonymous enum of the header.  [BDF_SYSTEM_ENDIAN] is an alias of one
    of the two enumerators, chosen by [__BYTE_ORDER__]. *)
Inductive Endian := BDF_LITTLE_ENDIAN | BDF_BIG_ENDIAN.

Definition Endian_eqb (a b : Endian) : bool :=
  match a, b with
  | BDF_LITTLE_ENDIAN, BDF_LITTLE_ENDIAN => true
  | BDF_BIG_ENDIAN, BDF_BIG_ENDIAN => true
  | _, _ => false
  end.

(** The widths for which [swapBytes<nBytes>] is specialised. *)
Inductive Width := W1 | W2 | W4 | W8.

Definition sizeof (w : Width) : nat :=
  match w with W1 => 1 | W2 => 2 | W4 => 4 | W8 => 8 end%nat.

(** What the compiler and its flags fix: the host byte order, the width of
    [size_t], and whether [assert] is compiled out. *)
Record Platform := {
  BDF_SYSTEM_ENDIAN : Endian;
  size_t : Width;
  NDEBUG : bool
}.

(** ** Byte-order transform *)

(** [std::swap(src[i], src[j])] on a char buffer.  Indexing past the buffer
    is undefined in C++; the model leaves the buffer alone there. *)
Definition std_swap (i j : nat) (src : list byte) : list byte :=
  match src !! i, src !! j with
  | Some a, Some b => <[j := a]> (<[i := b]> src)
  | _, _ => src
  end.

(** [template<int nBytes> void swapBytes(char *src)], one clause per
    specialisation. *)
Definition swapBytes (nBytes : Width) (src : list byte) : list byte :=
  match nBytes with
  | W1 => src
  | W2 => std_swap 0 1 src
  | W4 => std_swap 1 2 (std_swap 0 3 src)
  | W8 => std_swap 3 4 (std_swap 2 5 (std_swap 1 6 (std_swap 0 7 src)))
  end.


(** ** Scalars and their object representation *)

(** An integral or floating-point object of [sizeof w] bytes, given by its
    bit pattern read as an unsigned number.  Floats are compared on the bit
    pattern, so NaN payloads and signed zeros are distinct values. *)
Record scalar (w : Width) := Scalar { bits : Z }.
Arguments Scalar {w} bits.
Arguments bits {w} s.

Definition in_range {w} (v : scalar w) : Prop :=
  0 <= bits v < 2 ^ (Z.of_nat (sizeof w) * 8).

(** The bytes at [reinterpret_cast<char *>(&v)], in address order, and the
    object those bytes denote.  This is the host's layout, not the header's:
    least significant byte first on a little-endian host. *)
Definition object_bytes (plat : Platform) {w} (v : scalar w) : list byte :=
  match BDF_SYSTEM_ENDIAN plat with
  | BDF_LITTLE_ENDIAN => le_split (sizeof w) (bits v)
  | BDF_BIG_ENDIAN => rev (le_split (sizeof w) (bits v))
  end.

Definition of_object_bytes (plat : Platform) (w : Width) (src : list byte)
  : scalar w :=
  match BDF_SYSTEM_ENDIAN plat with
  | BDF_LITTLE_ENDIAN => Scalar (le_combine src)
  | BDF_BIG_ENDIAN => Scalar (le_combine (rev src))
  end.

(** [template<typename T> void swapBytes(T & src)]: the object is changed
    through its char view. *)
Definition swapBytes_T (plat : Platform) {w} (src : scalar w) : scalar w :=
  of_object_bytes plat w (swapBytes w (object_bytes plat src)).

(** [Swapper<Enabled>::swap(T & v)]. *)
Definition Swapper (plat : Platform) (Enabled : bool) {w} (v : scalar w)
  : scalar w :=
  if Enabled then swapBytes_T plat v else v.

(** ** The stream and the effects of a serializer call *)

(** The stream is the header's template parameter.  The model is one
    in-memory byte queue: [write] appends at the end, [read] consumes from
    the front.  The header never tests the stream after a call, so a failure
    can reach the caller only if the stream ends the call itself; the model
    is of such a stream (one that throws, as [std::stringstream] does once
    [exceptions(failbit | eofbit)] is set).  With a stream that only records
    the failure in a flag the header's calls go on with indeterminate values;
    that is outside the model, and no statement below speaks of it. *)
Definition Stream := list byte.

(** How a call can end other than by returning: the stream cannot supply
    the bytes asked for and ends the call, or an [assert] of the header
    fails.  [Result] records that a call was ended and why, not what the
    destination held at that point; the container readers are given again
    with the destination tracked through a fault, see [Outcome]. *)
Inductive Fault := StreamFault | AssertionFailed.

Inductive Result (A : Type) :=
  | Ok (a : A) (ss : Stream)
  | Err (f : Fault).
Arguments Ok {A} a ss.
Arguments Err {A} f.

Definition IO (A : Type) : Type := Stream -> Result A.

Definition ret {A} (a : A) : IO A := fun ss => Ok a ss.

Definition bind {A B} (m : IO A) (k : A -> IO B) : IO B :=
  fun ss => match m ss with
            | Ok a ss' => k a ss'
            | Err f => Err f
            end.

Notation "x <- m ;; k" := (bind m (fun x => k))
  (at level 100, m at next level, right associativity).
Notation "m ;; k" := (bind m (fun _ => k))
  (at level 100, right associativity).

(** The bytes a writer leaves on a stream that was empty. *)
Definition wire_of (m : IO unit) : list byte :=
  match m [] with
  | Ok _ ss => ss
  | Err _ => []
  end.

(** [ss.write(str, n)]: the first [n] chars at [str] go to the end of the
    stream.  The queue takes every write; a sink that can fail is not
    modelled. *)
Definition ss_write (str : list byte) (n : nat) : IO unit :=
  fun ss => Ok tt (ss ++ take n str).

(** [ss.read(str, n)]: the next [n] bytes of the stream replace the first
    [n] chars at [str]; the result is the buffer afterwards.  A stream that
    holds fewer than [n] bytes ends the call with a fault (the throwing
    stream described at [Stream]). *)
Definition ss_read (str : list byte) (n : nat) : IO (list byte) :=
  fun ss => if (n <=? length ss)%nat
            then Ok (take n ss ++ drop n str) (drop n ss)
            else Err StreamFault.

(** [std::strlen]: the number of chars before the first NUL.  A buffer
    without a NUL is undefined in C; the model stops at its end. *)
Fixpoint strlen (str : list byte) : nat :=
  match str with
  | [] => 0%nat
  | c :: str' => if Byte.eqb c Byte.x00 then 0%nat else S (strlen str')
  end.

(** ** Overload resolution *)

(** Every type [T] for which [s << x] and [s >> x] resolve.  [init] is the
    value-initialised [T()]; [shr] receives the destination object and
    returns what it holds afterwards. *)
Class Codec (T : Type) := {
  init : T;
  shl : Platform -> Endian -> T -> IO unit;
  shr : Platform -> Endian -> T -> IO T
}.

(** The comparison of [std::map<K, V>], [std::less<K>]. *)
Class Less (K : Type) := less : K -> K -> bool.

(** [std::map<K, V>] by its contents in iteration order. *)
Record std_map (K V : Type) := StdMap { entries : list (K * V) }.
Arguments StdMap {K V} entries.
Arguments entries {K V} s.

(** [mm[k] = v]: walk to the first key that is not less than [k]; if that
    key is equivalent to [k] its value is replaced, otherwise a new entry is
    put before it. *)
Fixpoint subscript_assign {K V} `{Less K} (k : K) (v : V) (mm : list (K * V))
  : list (K * V) :=
  match mm with
  | [] => [(k, v)]
  | (k', v') :: mm' =>
      if less k' k then (k', v') :: subscript_assign k v mm'
      else if less k k' then (k, v) :: (k', v') :: mm'
      else (k', v) :: mm'
  end.

(** [mm.find(k)], by equivalence under [less]. *)
Fixpoint find {K V} `{Less K} (k : K) (mm : list (K * V)) : option V :=
  match mm with
  | [] => None
  | (k', v') :: mm' =>
      if less k' k then find k mm'
      else if less k k' then None
      else Some v'
  end.

(** [for (auto it = c.begin(); it != c.end(); ++it)] with the loop body run
    on each element in turn. *)
Fixpoint for_each {T} (body : T -> IO unit) (c : list T) : IO unit :=
  match c with
  | [] => ret tt
  | x :: c' => body x ;; for_each body c'
  end.


(** [c.clear()]. *)
Definition clear {T} (c : list T) : list T := [].

(** [std::string], a run of chars that may contain NUL. *)
Record std_string := StdString { chars : list byte }.

(** ** The serializer *)

Section Serializer.
(** [template<typename Stream, int Endian> struct Serializer].  The
    [static_assert] of the constructor admits exactly the two enumerators. *)
Context (plat : Platform) (E : Endian).

(** [Endian != BDF_SYSTEM_ENDIAN], the argument of [Swapper]. *)
Definition swap_enabled : bool :=
  negb (Endian_eqb E (BDF_SYSTEM_ENDIAN plat)).

(** [void write(const char * str, size_t n) { ss.write(str,n); }] *)
Definition write (str : list byte) (n : nat) : IO unit := ss_write str n.

(** [Self & operator << (T v)] for integral and floating-point [T].  The
    parameter is the callee's own object. *)
Definition shl_scalar {w} (v : scalar w) : IO unit :=
  let v := Swapper plat swap_enabled v in
  write (object_bytes plat v) (sizeof w).

(** [assert(c)], a no-op when [NDEBUG] is defined. *)
Definition assert (c : bool) : IO unit :=
  fun ss => if NDEBUG plat || c then Ok tt ss else Err AssertionFailed.

(** [void read(char * str, size_t n) { assert(n>0); ss.read(str,n); }] *)
Definition read (str : list byte) (n : nat) : IO (list byte) :=
  assert (0 <? n)%nat ;; ss_read str n.

(** [Self & operator >> (T & v)] for integral and floating-point [T]. *)
Definition shr_scalar {w} (v : scalar w) : IO (scalar w) :=
  mem <- read (object_bytes plat v) (sizeof w) ;;
  let v := of_object_bytes plat w mem in
  ret (Swapper plat swap_enabled v).

(** Values of type [size_t]: what [size()] and [strlen] return, and the
    local [size_t n;] of the readers, whose content before [s >> n] is
    indeterminate (the model starts it at zero; [shr_scalar] replaces
    every byte of it). *)
Definition size_of_nat (n : nat) : scalar (size_t plat) := Scalar (Z.of_nat n).
Definition nat_of_size (n : scalar (size_t plat)) : nat := Z.to_nat (bits n).
Definition size_t_n : scalar (size_t plat) := Scalar 0.

(** [Self & operator << (const char * str)]; [str] is the memory from the
    pointer on. *)
Definition shl_cstr (str : list byte) : IO unit :=
  let n := strlen str in
  shl_scalar (size_of_nat n) ;;
  write str n.

(** [size_t read(char * str)]: no assertion on this path. *)
Definition read_sized (str : list byte) : IO (list byte * nat) :=
  n <- shr_scalar size_t_n ;;
  str <- ss_read str (nat_of_size n) ;;
  ret (str, nat_of_size n).

(** [Self & operator >> (char * str)].  A destination of fewer than
    [n + 1] chars is written out of bounds in C++; the model drops that
    store. *)
Definition shr_cstr (str : list byte) : IO (list byte) :=
  r <- read_sized str ;;
  ret (<[r.2 := Byte.x00]> (r.1)).

(** [operator << (Serializer &, const std::string &)] *)
Definition shl_string (str : std_string) : IO unit :=
  shl_scalar (size_of_nat (length (chars str))) ;;
  write (chars str) (length (chars str)).

(** [operator >> (Serializer &, std::string &)].  [str.resize(n)] is taken
    to succeed: [std::length_error] for [n] above [max_size()] and
    allocation failure are not modelled. *)
Definition shr_string (str : std_string) : IO std_string :=
  n <- shr_scalar size_t_n ;;
  let str := resize (nat_of_size n) Byte.x00 (chars str) in
  str <- read str (nat_of_size n) ;;
  ret (StdString str).

(** [std::pair]: [s << p.first << p.second] and [s >> p.first >> p.second]. *)
Definition shl_pair {T1 T2} `{Codec T1, Codec T2} (p : T1 * T2) : IO unit :=
  shl plat E p.1 ;; shl plat E p.2.

Definition shr_pair {T1 T2} `{Codec T1, Codec T2} (p : T1 * T2)
  : IO (T1 * T2) :=
  a <- shr plat E p.1 ;;
  b <- shr plat E p.2 ;;
  ret (a, b).

(** [std::vector] *)
Definition shl_vector {T} `{Codec T} (vv : list T) : IO unit :=
  shl_scalar (size_of_nat (length vv)) ;;
  for_each (shl plat E) vv.

(** [for(size_t i=0; i<n; ++i) s >> vv[i];] with [todo = n - i]. *)
Fixpoint shr_vector_loop {T} `{Codec T} (todo i : nat) (vv : list T)
  : IO (list T) :=
  match todo with
  | O => ret vv
  | S todo' =>
      x <- shr plat E (default init (vv !! i)) ;;
      shr_vector_loop todo' (S i) (<[i := x]> vv)
  end.

(** [operator >> (Serializer &, std::vector<T> &)].  As for strings,
    [vv.resize(n)] is taken to succeed. *)
Definition shr_vector {T} `{Codec T} (vv : list T) : IO (list T) :=
  n <- shr_scalar size_t_n ;;
  let vv := clear vv in
  let vv := resize (nat_of_size n) init vv in
  shr_vector_loop (nat_of_size n) 0 vv.

(** [std::map]; [*it] is a [std::pair<const T1, T2>], written by the pair
    overload. *)
Definition shl_map {T1 T2} `{Codec T1, Codec T2} (mm : std_map T1 T2)
  : IO unit :=
  shl_scalar (size_of_nat (length (entries mm))) ;;
  for_each shl_pair (entries mm).

(** [for(size_t i=0; i<n; ++i) { s >> p; mm[p.first] = p.second; }]: the
    one local [p] is the destination of every iteration. *)
Fixpoint shr_map_loop {T1 T2} `{Codec T1, Codec T2, Less T1}
    (todo : nat) (p : T1 * T2) (mm : list (T1 * T2)) : IO (list (T1 * T2)) :=
  match todo with
  | O => ret mm
  | S todo' =>
      p <- shr_pair p ;;
      shr_map_loop todo' p (subscript_assign p.1 p.2 mm)
  end.

(** [std::pair<T1,T2> p;] is default-initialised: members of class type
    are empty, scalar members indeterminate (started at zero here, and
    replaced whole by the first [s >> p]). *)
Definition shr_map {T1 T2} `{Codec T1, Codec T2, Less T1}
    (mm : std_map T1 T2) : IO (std_map T1 T2) :=
  n <- shr_scalar size_t_n ;;
  let mm := clear (entries mm) in
  let p := (init, init) in
  mm <- shr_map_loop (nat_of_size n) p mm ;;
  ret (StdMap mm).
End Serializer.

(** The overloads as instances; nested composites resolve through them. *)
#[export] Instance scalar_Codec (w : Width) : Codec (scalar w) := {|
  init := Scalar 0;
  shl := fun plat E => shl_scalar plat E;
  shr := fun plat E => shr_scalar plat E
|}.

#[export] Instance string_Codec : Codec std_string := {|
  init := StdString [];
  shl := shl_string;
  shr := shr_string
|}.

#[export] Instance pair_Codec {T1 T2} `{Codec T1, Codec T2} : Codec (T1 * T2) := {|
  init := (init, init);
  shl := fun plat E => shl_pair plat E;
  shr := fun plat E => shr_pair plat E
|}.

#[export] Instance vector_Codec {T} `{Codec T} : Codec (list T) := {|
  init := [];
  shl := fun plat E => shl_vector plat E;
  shr := fun plat E => shr_vector plat E
|}.

#[export] Instance map_Codec {T1 T2} `{Codec T1, Codec T2, Less T1}
  : Codec (std_map T1 T2) := {|
  init := StdMap [];
  shl := fun plat E => shl_map plat E;
  shr := fun plat E => shr_map plat E
|}.

(** Unsigned comparison of scalars, the order of a map keyed by an unsigned
    integer type.  Signed and floating-point keys order differently; the
    statements about maps are generic in the comparison. *)
#[export] Instance scalar_Less (w : Width) : Less (scalar w) :=
  fun a b => bits a <? bits b.

(** ** Vocabulary of the statements *)

(** Encode [x] onto an empty stream, then decode into [dest]. *)
Definition encode_then_decode {T} `{Codec T} (plat : Platform) (E : Endian)
    (x dest : T) : Result T :=
  (shl plat E x ;; shr plat E dest) [].

(** The wire bytes of [x]. *)
Definition wire {T} `{Codec T} (plat : Platform) (E : Endian) (x : T)
  : list byte :=
  wire_of (shl plat E x).

(** [x] round-trips in every context: writing it appends [wire x] to
    whatever the stream holds, and reading from a stream that starts with
    [wire x] gives [x] back, whatever the destination held, and leaves the
    rest. *)
Definition RoundTrips {T} `{Codec T} (plat : Platform) (E : Endian) (x : T)
  : Prop :=
  (forall ss, shl plat E x ss = Ok tt (ss ++ wire plat E x)) /\
  (forall dest rest, shr plat E dest (wire plat E x ++ rest) = Ok x rest).

(** A count that a [size_t] can hold; true of every [size()]. *)
Definition fits_size_t (plat : Platform) (n : nat) : Prop :=
  Z.of_nat n < 2 ^ (Z.of_nat (sizeof (size_t plat)) * 8).

(** The entries of a [std::map] are in strictly increasing key order. *)
Definition map_ok {K V} `{Less K} (mm : std_map K V) : Prop :=
  StronglySorted (fun a b => less a.1 b.1 = true) (entries mm).

(** Key and value of an entry both round-trip. *)
Definition EntryRoundTrips {K V} `{Codec K, Codec V} (plat : Platform)
    (E : Endian) (kv : K * V) : Prop :=
  RoundTrips plat E kv.1 /\ RoundTrips plat E kv.2.

(** A byte sequence that reads the same in both directions. *)
Definition palindromic (bs : list byte) : Prop := bs = rev bs.

(** ** Objects in memory: argument passing *)

(** Objects by address, each as its bytes. *)
Abbreviation Memory := (gmap nat (list byte)).

Section Calls.
Context (plat : Platform) (E : Endian).

(** [swapBytes<sizeof(T)>(reinterpret_cast<char *>(&src))] on the object
    at address [p]. *)
Definition swapBytes_at (w : Width) (p : nat) (mem : Memory) : Memory :=
  alter (swapBytes w) p mem.

Definition Swapper_at (Enabled : bool) (w : Width) (p : nat) (mem : Memory)
  : Memory :=
  if Enabled then swapBytes_at w p mem else mem.

(** The call [s << x] with the caller's [x] at address [a].  [T v] is
    taken by value: a new object at an unused address [p], initialised
    from [x].  [Swapper::swap] and [write] work on [p], and [v] ends with
    the call. *)
Definition call_shl_scalar (w : Width) (a : nat) (mem : Memory)
  : IO Memory :=
  let p := fresh (dom mem) in
  let mem := <[p := default [] (mem !! a)]> mem in
  let mem := Swapper_at (swap_enabled plat E) w p mem in
  write (default [] (mem !! p)) (sizeof w) ;;
  ret (delete p mem).

(** The call [s >> x]: [T & v] is the caller's object itself. *)
Definition call_shr_scalar (w : Width) (a : nat) (mem : Memory)
  : IO Memory :=
  bs <- read plat (default [] (mem !! a)) (sizeof w) ;;
  let mem := <[a := bs]> mem in
  ret (Swapper_at (swap_enabled plat E) w a mem).
End Calls.

(** ** Keys of a mapping *)

(** Two keys are equivalent for [std::map] when neither is less than the
    other. *)
Definition equiv {K} `{Less K} (a b : K) : bool :=
  negb (less a b) && negb (less b a).

(** The value of the last entry of [xs] whose key is equivalent to [k]. *)
Fixpoint last_value {K V} `{Less K} (k : K) (xs : list (K * V)) : option V :=
  match xs with
  | [] => None
  | (k', v') :: xs' =>
      match last_value k xs' with
      | Some v => Some v
      | None => if equiv k k' then Some v' else None
      end
  end.

(** [less] is a strict total order, as [operator<] is on the integer types
    and on [std::string]. *)
Class StrictTotalOrder (K : Type) `{Less K} : Prop := {
  less_irrefl : forall a : K, less a a = false;
  less_trans : forall a b c : K,
    less a b = true -> less b c = true -> less a c = true;
  less_total : forall a b : K, less a b = false -> less b a = false -> a = b
}.

(** [operator<] of [std::string]: lexicographic, chars compared as unsigned. *)
Fixpoint lex_less (a b : list byte) : bool :=
  match a, b with
  | _, [] => false
  | [], _ :: _ => true
  | x :: a', y :: b' =>
      if (Byte.to_N x <? Byte.to_N y)%N then true
      else if (Byte.to_N y <? Byte.to_N x)%N then false
      else lex_less a' b'
  end.

#[export] Instance string_Less : Less std_string :=
  fun a b => lex_less (chars a) (chars b).

(** ** The destination of a container read, through a fault *)

(** How a read into a caller's container ends.  It returns, with the
    container and the rest of the stream; or it is ended by a fault, and
    [kept] is what the caller's container holds at that point, as far as the
    reader itself got. *)
Inductive Outcome (A P : Type) :=
  | Returned (a : A) (ss : Stream)
  | Faulted (f : Fault) (kept : P).
Arguments Returned {A P} a ss.
Arguments Faulted {A P} f kept.

(** The outcome without the container a fault leaves behind. *)
Definition forget {A P} (o : Outcome A P) : Result A :=
  match o with
  | Returned a ss => Ok a ss
  | Faulted f _ => Err f
  end.

Section Tracked.
Context (plat : Platform) (E : Endian).

(** The loop of the vector reader.  When [s >> vv[i]] is ended by a fault
    the slots before [i] hold the elements read, the slots after [i] are
    still value-initialised, and slot [i], which was value-initialised when
    its read began, holds whatever the element reader left there: that slot
    is [None]. *)
Fixpoint shr_vector_loop_outcome {T} `{Codec T} (todo i : nat) (vv : list T)
    (ss : Stream) : Outcome (list T) (list (option T)) :=
  match todo with
  | O => Returned vv ss
  | S todo' =>
      match shr plat E (default init (vv !! i)) ss with
      | Ok x ss' => shr_vector_loop_outcome todo' (S i) (<[i := x]> vv) ss'
      | Err f => Faulted f (<[i := None]> (Some <$> vv))
      end
  end.

(** [operator >> (Serializer &, std::vector<T> &)]: [s >> n] comes before
    [vv.clear()], so a fault in it leaves [vv] as it was passed. *)
Definition shr_vector_outcome {T} `{Codec T} (vv : list T) (ss : Stream)
  : Outcome (list T) (list (option T)) :=
  match shr_scalar plat E (size_t_n plat) ss with
  | Err f => Faulted f (Some <$> vv)
  | Ok n ss' =>
      let vv := clear vv in
      let vv := resize (nat_of_size plat n) init vv in
      shr_vector_loop_outcome (nat_of_size plat n) 0 vv ss'
  end.

(** The loop of the map reader.  [s >> p] works on the local [p]; when it is
    ended by a fault, [mm] holds the entries assigned so far. *)
Fixpoint shr_map_loop_outcome {T1 T2} `{Codec T1, Codec T2, Less T1}
    (todo : nat) (p : T1 * T2) (mm : list (T1 * T2)) (ss : Stream)
  : Outcome (std_map T1 T2) (std_map T1 T2) :=
  match todo with
  | O => Returned (StdMap mm) ss
  | S todo' =>
      match shr_pair plat E p ss with
      | Ok p ss' =>
          shr_map_loop_outcome todo' p (subscript_assign p.1 p.2 mm) ss'
      | Err f => Faulted f (StdMap mm)
      end
  end.

(** [operator >> (Serializer &, std::map<T1,T2> &)]: again [s >> n] comes
    before [mm.clear()]. *)
Definition shr_map_outcome {T1 T2} `{Codec T1, Codec T2, Less T1}
    (mm : std_map T1 T2) (ss : Stream)
  : Outcome (std_map T1 T2) (std_map T1 T2) :=
  match shr_scalar plat E (size_t_n plat) ss with
  | Err f => Faulted f mm
  | Ok n ss' =>
      let mm := clear (entries mm) in
      let p := (init, init) in
      shr_map_loop_outcome (nat_of_size plat n) p mm ss'
  end.
End Tracked.

(** ** Properties *)

Lemma swapBytes_length w src : length (swapBytes w src) = length src.
Proof.
  assert (Hs : forall i j l, length (std_swap i j l) = length l).
  { intros i j l. unfold std_swap.
    destruct (l !! i), (l !! j); rewrite ?length_insert; reflexivity. }
  destruct w; simpl; rewrite ?Hs; reflexivity.
Qed.

Lemma swapBytes_rev w src :
  length src = sizeof w -> swapBytes w src = rev src.
Proof.
  intros H.
  destruct w; simpl in H;
    repeat (destruct src as [|? src]; try discriminate H); reflexivity.
Qed.

(** *** The object representation *)

Lemma object_bytes_length plat w (v : scalar w) :
  length (object_bytes plat v) = sizeof w.
Proof.
  unfold object_bytes.
  destruct (BDF_SYSTEM_ENDIAN plat);
    rewrite ?length_rev, length_le_split; reflexivity.
Qed.

Lemma of_object_bytes_in_range plat w src :
  length src = sizeof w -> in_range (of_object_bytes plat w src).
Proof.
  intros H. unfold in_range, of_object_bytes.
  destruct (BDF_SYSTEM_ENDIAN plat); simpl.
  - pose proof (le_combine_bound src) as B. rewrite H in B.
    rewrite Z.mul_comm. exact B.
  - pose proof (le_combine_bound (rev src)) as B.
    rewrite length_rev, H in B. rewrite Z.mul_comm. exact B.
Qed.

Lemma of_object_bytes_object_bytes plat w (v : scalar w) :
  in_range v -> of_object_bytes plat w (object_bytes plat v) = v.
Proof.
  intros H. destruct v as [z]. unfold in_range in H. simpl in H.
  unfold of_object_bytes, object_bytes.
  destruct (BDF_SYSTEM_ENDIAN plat); simpl;
    rewrite ?rev_involutive, le_combine_split, Z.mod_small by exact H;
    reflexivity.
Qed.

Lemma object_bytes_of_object_bytes plat w src :
  length src = sizeof w ->
  object_bytes plat (of_object_bytes plat w src) = src.
Proof.
  intros H. unfold of_object_bytes, object_bytes.
  destruct (BDF_SYSTEM_ENDIAN plat); simpl.
  - rewrite <- H. apply split_le_combine.
  - rewrite <- H, <- (length_rev src), split_le_combine.
    apply rev_involutive.
Qed.

(** *** The byte-order transform on objects *)

Lemma swapBytes_involutive_buffer w src :
  length src = sizeof w -> swapBytes w (swapBytes w src) = src.
Proof.
  intros H.
  rewrite (swapBytes_rev w (swapBytes w src))
    by (rewrite swapBytes_length; exact H).
  rewrite (swapBytes_rev w src H). apply rev_involutive.
Qed.

Lemma object_bytes_swapBytes_T plat w (v : scalar w) :
  object_bytes plat (swapBytes_T plat v) = rev (object_bytes plat v).
Proof.
  unfold swapBytes_T.
  rewrite object_bytes_of_object_bytes
    by (rewrite swapBytes_length; apply object_bytes_length).
  apply swapBytes_rev, object_bytes_length.
Qed.

Lemma swapBytes_T_involutive plat w (v : scalar w) :
  in_range v -> swapBytes_T plat (swapBytes_T plat v) = v.
Proof.
  intros H. unfold swapBytes_T.
  rewrite object_bytes_of_object_bytes
    by (rewrite swapBytes_length; apply object_bytes_length).
  rewrite swapBytes_involutive_buffer by apply object_bytes_length.
  apply of_object_bytes_object_bytes, H.
Qed.

Lemma swapBytes_T_in_range plat w (v : scalar w) :
  in_range (swapBytes_T plat v).
Proof.
  apply of_object_bytes_in_range.
  rewrite swapBytes_length. apply object_bytes_length.
Qed.

Lemma Swapper_involutive plat en w (v : scalar w) :
  in_range v -> Swapper plat en (Swapper plat en v) = v.
Proof.
  intros H. destruct en; simpl; [apply swapBytes_T_involutive, H | reflexivity].
Qed.

Lemma Swapper_in_range plat en w (v : scalar w) :
  in_range v -> in_range (Swapper plat en v).
Proof.
  intros H. destruct en; simpl; [apply swapBytes_T_in_range | exact H].
Qed.

(** C4: the byte-order transform is an involution.  On a char buffer of
    [nBytes] chars, for [nBytes] in 1, 2, 4, 8, [swapBytes<nBytes>] applied
    twice gives the buffer back; so does the [T &] overload applied twice to
    an object of that width; and for width 1 a single swap already changes
    nothing. *)
Theorem swapBytes_involution plat w (src : list byte) (x : scalar w) :
  length src = sizeof w ->
  in_range x ->
  swapBytes w (swapBytes w src) = src /\
  swapBytes_T plat (swapBytes_T plat x) = x /\
  (w = W1 -> swapBytes w src = src /\ swapBytes_T plat x = x).
Proof.
  intros Hlen Hx. split; [|split].
  - apply swapBytes_involutive_buffer, Hlen.
  - apply swapBytes_T_involutive, Hx.
  - intros ->. split; [reflexivity|].
    unfold swapBytes_T. simpl. apply of_object_bytes_object_bytes, Hx.
Qed.

Lemma swapBytes_involution_witness :
  let plat := {| BDF_SYSTEM_ENDIAN := BDF_BIG_ENDIAN; size_t := W8;
                 NDEBUG := false |} in
  let src := [Byte.x01; Byte.x02; Byte.x03; Byte.x04;
              Byte.x05; Byte.x06; Byte.x07; Byte.x08] in
  let x : scalar W8 := Scalar 0x0102030405060708 in
  swapBytes W8 (swapBytes W8 src) = src /\
  swapBytes_T plat (swapBytes_T plat x) = x /\
  (W8 = W1 -> swapBytes W8 src = src /\ swapBytes_T plat x = x).
Proof.
  intros plat src x.
  apply (swapBytes_involution plat W8 src x).
  - reflexivity.
  - unfold in_range. simpl. lia.
Defined.

(** *** Running the monad *)

Lemma bind_Ok {A B} (m : IO A) (k : A -> IO B) ss a ss' :
  m ss = Ok a ss' -> bind m k ss = k a ss'.
Proof. intros H. unfold bind. rewrite H. reflexivity. Qed.

Lemma bind_Err {A B} (m : IO A) (k : A -> IO B) ss f :
  m ss = Err f -> bind m k ss = Err f.
Proof. intros H. unfold bind. rewrite H. reflexivity. Qed.

Lemma write_run str n ss :
  length str = n -> write str n ss = Ok tt (ss ++ str).
Proof.
  intros H. unfold write, ss_write. rewrite take_ge by lia. reflexivity.
Qed.

Lemma ss_read_run str bs rest :
  length str = length bs ->
  ss_read str (length bs) (bs ++ rest) = Ok bs rest.
Proof.
  intros H. unfold ss_read.
  rewrite length_app.
  destruct (Nat.leb_spec (length bs) (length bs + length rest)); [|lia].
  rewrite take_app_length, drop_app_length, drop_ge by lia.
  rewrite app_nil_r. reflexivity.
Qed.

Lemma read_run plat str bs rest :
  NDEBUG plat || (0 <? length bs)%nat = true ->
  length str = length bs ->
  read plat str (length bs) (bs ++ rest) = Ok bs rest.
Proof.
  intros Hn Hlen. unfold read.
  erewrite bind_Ok; [apply ss_read_run, Hlen|].
  unfold assert. rewrite Hn. reflexivity.
Qed.

Lemma sizeof_pos w : (0 < sizeof w)%nat.
Proof. destruct w; simpl; lia. Qed.

(** *** The primitive codec *)

Lemma shl_scalar_run plat E w (v : scalar w) ss :
  shl_scalar plat E v ss =
  Ok tt (ss ++ object_bytes plat (Swapper plat (swap_enabled plat E) v)).
Proof. unfold shl_scalar. apply write_run, object_bytes_length. Qed.

Lemma wire_scalar plat E w (v : scalar w) :
  wire plat E v = object_bytes plat (Swapper plat (swap_enabled plat E) v).
Proof.
  unfold wire, wire_of.
  change (shl plat E v []) with (shl_scalar plat E v []).
  rewrite shl_scalar_run. reflexivity.
Qed.

Lemma shr_scalar_run plat E w (dest : scalar w) bs rest :
  length bs = sizeof w ->
  shr_scalar plat E dest (bs ++ rest) =
  Ok (Swapper plat (swap_enabled plat E) (of_object_bytes plat w bs)) rest.
Proof.
  intros H. unfold shr_scalar.
  erewrite bind_Ok; [reflexivity|].
  rewrite <- H. apply read_run.
  - rewrite H. pose proof (sizeof_pos w) as P.
    apply Nat.ltb_lt in P. rewrite P. apply orb_true_r.
  - rewrite H. apply object_bytes_length.
Qed.

Lemma scalar_roundtrips plat E w (v : scalar w) :
  in_range v -> RoundTrips plat E v.
Proof.
  intros Hv. split.
  - intros ss. rewrite wire_scalar. apply shl_scalar_run.
  - intros dest rest. rewrite wire_scalar.
    change (shr plat E dest) with (shr_scalar plat E dest).
    rewrite shr_scalar_run by apply object_bytes_length.
    rewrite of_object_bytes_object_bytes by apply Swapper_in_range, Hv.
    rewrite Swapper_involutive by exact Hv. reflexivity.
Qed.

Lemma roundtrips_run {T} `{Codec T} plat E (x dest : T) :
  RoundTrips plat E x -> encode_then_decode plat E x dest = Ok x [].
Proof.
  intros [Hw Hr]. unfold encode_then_decode.
  erewrite bind_Ok by apply Hw. simpl.
  rewrite <- (app_nil_r (wire plat E x)). apply Hr.
Qed.

(** C1: for every width in 1, 2, 4, 8, every bit pattern [v] of that width
    (integers and floats alike, so zero, the extreme values, NaN and the
    infinities are covered), every tag [E] and every host, also the host's
    own order, writing [v] with [s << v] and reading it back with [s >> dest]
    from a serializer of the same tag gives [v], whatever [dest] held, and
    uses up exactly the bytes written. *)
Theorem scalar_round_trip plat E w (v dest : scalar w) :
  in_range v ->
  encode_then_decode plat E v dest = Ok v [] /\
  encode_then_decode plat (BDF_SYSTEM_ENDIAN plat) v dest = Ok v [].
Proof.
  intros Hv. split; apply roundtrips_run, scalar_roundtrips, Hv.
Qed.

Lemma scalar_round_trip_witness :
  let plat := {| BDF_SYSTEM_ENDIAN := BDF_LITTLE_ENDIAN; size_t := W8;
                 NDEBUG := false |} in
  let nan : scalar W8 := Scalar 0x7FF8000000000001 in
  encode_then_decode plat BDF_BIG_ENDIAN nan (Scalar 0) = Ok nan [] /\
  encode_then_decode plat BDF_LITTLE_ENDIAN nan (Scalar 0) = Ok nan [].
Proof.
  intros plat nan.
  apply (scalar_round_trip plat BDF_BIG_ENDIAN W8 nan (Scalar 0)).
  unfold in_range. simpl. lia.
Defined.

(** C5: on a little-endian host the 32-bit value 0x12345678 written with the
    big-endian tag is the bytes 12 34 56 78; read with the big-endian tag
    they give 0x12345678 again, read with the little-endian tag they give
    0x78563412. *)
Theorem big_endian_scenario (sz : Width) (nd : bool) (dest : scalar W4) :
  let host := {| BDF_SYSTEM_ENDIAN := BDF_LITTLE_ENDIAN;
                 size_t := sz; NDEBUG := nd |} in
  let bytes := [Byte.x12; Byte.x34; Byte.x56; Byte.x78] in
  shl host BDF_BIG_ENDIAN (Scalar (w := W4) 0x12345678) [] = Ok tt bytes /\
  shr host BDF_BIG_ENDIAN dest bytes = Ok (Scalar 0x12345678) [] /\
  shr host BDF_LITTLE_ENDIAN dest bytes = Ok (Scalar 0x78563412) [].
Proof.
  intros host bytes. split; [reflexivity|]. split.
  - apply (shr_scalar_run host BDF_BIG_ENDIAN W4 dest bytes []). reflexivity.
  - apply (shr_scalar_run host BDF_LITTLE_ENDIAN W4 dest bytes []). reflexivity.
Qed.

(** *** The two tags compared *)

(** A one-byte object reads the same in both directions. *)
Lemma one_byte_palindromic plat (v : scalar W1) :
  palindromic (object_bytes plat v).
Proof.
  unfold palindromic.
  pose proof (object_bytes_length plat W1 v) as H.
  destruct (object_bytes plat v) as [|b [|? ?]]; try discriminate H.
  reflexivity.
Qed.

(** When the bytes are a palindrome the two tags write the same. *)
Lemma same_wire_when_palindromic plat w (v : scalar w) :
  palindromic (object_bytes plat v) ->
  wire plat BDF_LITTLE_ENDIAN v = wire plat BDF_BIG_ENDIAN v.
Proof.
  unfold palindromic. intros Hp.
  rewrite !wire_scalar. unfold swap_enabled.
  destruct (BDF_SYSTEM_ENDIAN plat); simpl;
    rewrite object_bytes_swapBytes_T; congruence.
Qed.

(** C6: a scalar whose bytes do not read the same in both directions (which
    needs at least two bytes) is written differently under the little-endian
    and the big-endian tag, on either host. *)
Theorem cross_tag_distinct plat w (v : scalar w) :
  ~ palindromic (object_bytes plat v) ->
  wire plat BDF_LITTLE_ENDIAN v <> wire plat BDF_BIG_ENDIAN v.
Proof.
  unfold palindromic. intros Hnp Heq. apply Hnp.
  rewrite !wire_scalar in Heq. unfold swap_enabled in Heq.
  destruct (BDF_SYSTEM_ENDIAN plat); simpl in Heq;
    rewrite object_bytes_swapBytes_T in Heq; congruence.
Qed.

Lemma cross_tag_distinct_witness :
  wire {| BDF_SYSTEM_ENDIAN := BDF_LITTLE_ENDIAN; size_t := W8; NDEBUG := false |}
       BDF_LITTLE_ENDIAN (Scalar (w := W2) 0x1234) <>
  wire {| BDF_SYSTEM_ENDIAN := BDF_LITTLE_ENDIAN; size_t := W8; NDEBUG := false |}
       BDF_BIG_ENDIAN (Scalar (w := W2) 0x1234).
Proof.
  apply (cross_tag_distinct
           {| BDF_SYSTEM_ENDIAN := BDF_LITTLE_ENDIAN; size_t := W8;
              NDEBUG := false |} W2 (Scalar 0x1234)).
  vm_compute. intros H. discriminate H.
Defined.

(** *** Argument passing *)

Lemma Swapper_at_lookup en w p (mem : Memory) bs :
  mem !! p = Some bs ->
  Swapper_at en w p mem !! p = Some (if en then swapBytes w bs else bs).
Proof.
  intros H. destruct en; simpl; [|exact H].
  unfold swapBytes_at. rewrite lookup_alter_eq, H. reflexivity.
Qed.

Lemma delete_Swapper_at en w p (mem : Memory) :
  delete p (Swapper_at en w p mem) = delete p mem.
Proof.
  destruct en; simpl; [|reflexivity].
  unfold swapBytes_at. apply delete_alter_eq.
Qed.

Lemma object_bytes_Swapper plat en w (v : scalar w) :
  object_bytes plat (Swapper plat en v) =
  if en then swapBytes w (object_bytes plat v) else object_bytes plat v.
Proof.
  destruct en; simpl; [|reflexivity].
  rewrite object_bytes_swapBytes_T.
  symmetry. apply swapBytes_rev, object_bytes_length.
Qed.

(** C8: [s << x] does not change the caller's [x].  With [x] stored at
    address [a], the call returns with every object of the caller's memory as
    it was, [x] included, although the bytes it put on the stream are the
    swapped ones when the tag differs from the host order: the swap was made
    on the parameter, a copy. *)
Theorem write_keeps_argument plat E w (x : scalar w) (a : nat)
    (mem : Memory) (ss : Stream) :
  mem !! a = Some (object_bytes plat x) ->
  exists mem',
    call_shl_scalar plat E w a mem ss = Ok mem' (ss ++ wire plat E x) /\
    mem' !! a = Some (object_bytes plat x) /\
    mem' = mem.
Proof.
  intros Ha. exists mem.
  split; [|split; [exact Ha | reflexivity]].
  pose proof (is_fresh (dom mem)) as Hp.
  apply not_elem_of_dom in Hp.
  unfold call_shl_scalar. rewrite Ha. simpl.
  set (p := fresh (dom mem)) in *.
  rewrite (Swapper_at_lookup _ w p _ (object_bytes plat x))
    by apply lookup_insert_eq.
  rewrite delete_Swapper_at, delete_insert_eq, delete_id by exact Hp.
  rewrite wire_scalar, object_bytes_Swapper.
  erewrite bind_Ok; [reflexivity|].
  apply write_run.
  destruct (swap_enabled plat E);
    rewrite ?swapBytes_length; apply object_bytes_length.
Qed.

Lemma write_keeps_argument_witness :
  exists mem',
    call_shl_scalar
      {| BDF_SYSTEM_ENDIAN := BDF_LITTLE_ENDIAN; size_t := W8; NDEBUG := false |}
      BDF_BIG_ENDIAN W2 0%nat
      {[ 0%nat := [Byte.x34; Byte.x12] ]} [] =
    Ok mem' [Byte.x12; Byte.x34] /\
    mem' !! 0%nat = Some [Byte.x34; Byte.x12] /\
    mem' = {[ 0%nat := [Byte.x34; Byte.x12] ]}.
Proof.
  apply (write_keeps_argument
           {| BDF_SYSTEM_ENDIAN := BDF_LITTLE_ENDIAN; size_t := W8;
              NDEBUG := false |}
           BDF_BIG_ENDIAN W2 (Scalar 0x1234) 0%nat
           {[ 0%nat := [Byte.x34; Byte.x12] ]} []).
  reflexivity.
Defined.

(** The reader, in contrast, takes its operand by reference: the caller's
    object is the one that changes. *)
Lemma read_changes_argument plat E w (a : nat) (mem : Memory) bs old rest :
  length bs = sizeof w ->
  mem !! a = Some old ->
  length old = sizeof w ->
  exists mem',
    call_shr_scalar plat E w a mem (bs ++ rest) = Ok mem' rest /\
    mem' !! a =
      Some (if swap_enabled plat E then swapBytes w bs else bs).
Proof.
  intros Hbs Ha Hold. unfold call_shr_scalar. rewrite Ha. simpl.
  eexists. split.
  - erewrite bind_Ok; [reflexivity|].
    rewrite <- Hbs. apply read_run.
    + rewrite Hbs. pose proof (sizeof_pos w) as P.
      apply Nat.ltb_lt in P. rewrite P. apply orb_true_r.
    + congruence.
  - apply Swapper_at_lookup, lookup_insert_eq.
Qed.

(** *** Length prefixes *)

Lemma size_of_nat_in_range plat n :
  fits_size_t plat n -> in_range (size_of_nat plat n).
Proof. unfold fits_size_t, in_range, size_of_nat. simpl. lia. Qed.

Lemma nat_of_size_of_nat plat n : nat_of_size plat (size_of_nat plat n) = n.
Proof. unfold nat_of_size, size_of_nat. simpl. apply Nat2Z.id. Qed.

Lemma shl_size_run plat E n ss :
  shl_scalar plat E (size_of_nat plat n) ss =
  Ok tt (ss ++ wire plat E (size_of_nat plat n)).
Proof. rewrite wire_scalar. apply shl_scalar_run. Qed.

Lemma shr_size_run plat E n dest rest :
  fits_size_t plat n ->
  shr_scalar plat E dest (wire plat E (size_of_nat plat n) ++ rest) =
  Ok (size_of_nat plat n) rest.
Proof.
  intros Hn.
  apply (proj2 (scalar_roundtrips plat E _ _ (size_of_nat_in_range _ _ Hn))).
Qed.

(** *** Strings *)

Lemma shl_string_run plat E (str : std_string) ss :
  shl_string plat E str ss =
  Ok tt (ss ++ wire plat E (size_of_nat plat (length (chars str)))
            ++ chars str).
Proof.
  unfold shl_string.
  erewrite bind_Ok by apply shl_size_run.
  rewrite write_run by reflexivity. rewrite <- app_assoc. reflexivity.
Qed.

Lemma wire_string plat E (str : std_string) :
  wire plat E str =
  wire plat E (size_of_nat plat (length (chars str))) ++ chars str.
Proof.
  unfold wire at 1, wire_of.
  change (shl plat E str []) with (shl_string plat E str []).
  rewrite shl_string_run. reflexivity.
Qed.

(** Every string that the length prefix can describe round-trips, embedded
    NUL chars or not, except that the empty one needs a build without
    assertions. *)
Lemma string_roundtrips plat E (str : std_string) :
  NDEBUG plat = true \/ chars str <> [] ->
  fits_size_t plat (length (chars str)) ->
  RoundTrips plat E str.
Proof.
  intros Hne Hfit. split.
  - intros ss. rewrite wire_string. apply shl_string_run.
  - intros dest rest. rewrite wire_string, <- app_assoc.
    change (shr plat E dest) with (shr_string plat E dest).
    unfold shr_string.
    erewrite bind_Ok by (apply shr_size_run, Hfit).
    rewrite nat_of_size_of_nat.
    destruct str as [cs]. simpl in *.
    erewrite bind_Ok; [reflexivity|].
    apply read_run; [|apply length_resize].
    destruct Hne as [-> | Hne]; [reflexivity|].
    destruct cs; [congruence|]. apply orb_true_r.
Qed.

(** C2, at the empty string with assertions compiled in: the writer emits a
    zero length prefix and nothing else; the reader then calls
    [read(&str[0], 0)], whose [assert(n>0)] fails.  The decode does not
    return the empty string. *)
Theorem empty_string_decode_asserts (sys : Endian) (sz : Width) (E : Endian)
    (dest : std_string) :
  let build := {| BDF_SYSTEM_ENDIAN := sys; size_t := sz; NDEBUG := false |} in
  shl build E (StdString []) [] =
    Ok tt (wire build E (size_of_nat build 0)) /\
  encode_then_decode build E (StdString []) dest = Err AssertionFailed.
Proof.
  intros build.
  assert (Hfit : fits_size_t build 0).
  { unfold fits_size_t. simpl. apply Z.pow_pos_nonneg; lia. }
  split.
  - change (shl build E (StdString []) []) with
      (shl_string build E (StdString []) []).
    rewrite shl_string_run. simpl. rewrite app_nil_r. reflexivity.
  - unfold encode_then_decode.
    change (shl build E (StdString [])) with (shl_string build E (StdString [])).
    erewrite bind_Ok by apply shl_string_run. simpl.
    change (shr build E dest) with (shr_string build E dest).
    unfold shr_string.
    erewrite bind_Ok by (apply shr_size_run, Hfit).
    rewrite nat_of_size_of_nat. reflexivity.
Qed.

(** *** Literals *)

Lemma strlen_terminated (s junk : list byte) :
  ~ In Byte.x00 s -> strlen (s ++ Byte.x00 :: junk) = length s.
Proof.
  induction s as [|c s IH]; intros Hs; simpl.
  - reflexivity.
  - destruct (Byte.eqb c Byte.x00) eqn:Hc.
    + apply Byte.byte_dec_bl in Hc. subst c. exfalso. apply Hs. now left.
    + f_equal. apply IH. intros Hin. apply Hs. now right.
Qed.

(** C9: for chars [s] free of NUL, held in memory as [s], a NUL, and
    anything after it, the literal writer puts on the stream exactly what the
    [std::string] writer puts there for the string [s]: the length of [s] as
    a [size_t] under the same tag, then the chars of [s], and no terminator. *)
Theorem literal_writer_agrees plat E (s : std_string) (junk : list byte)
    (ss : Stream) :
  ~ In Byte.x00 (chars s) ->
  shl_cstr plat E (chars s ++ Byte.x00 :: junk) ss = shl_string plat E s ss /\
  shl_string plat E s ss =
    Ok tt (ss ++ wire plat E (size_of_nat plat (length (chars s))) ++ chars s).
Proof.
  intros Hs. split; [|apply shl_string_run].
  rewrite shl_string_run. unfold shl_cstr.
  rewrite strlen_terminated by exact Hs.
  erewrite bind_Ok by apply shl_size_run.
  unfold write, ss_write.
  rewrite take_app_length, <- app_assoc. reflexivity.
Qed.

Lemma literal_writer_agrees_witness :
  let plat := {| BDF_SYSTEM_ENDIAN := BDF_LITTLE_ENDIAN; size_t := W4;
                 NDEBUG := false |} in
  let s := StdString [Byte.x41; Byte.x42] in
  shl_cstr plat BDF_BIG_ENDIAN [Byte.x41; Byte.x42; Byte.x00; Byte.x43] [] =
    shl_string plat BDF_BIG_ENDIAN s [] /\
  shl_string plat BDF_BIG_ENDIAN s [] =
    Ok tt [Byte.x00; Byte.x00; Byte.x00; Byte.x02; Byte.x41; Byte.x42].
Proof.
  apply (literal_writer_agrees
           {| BDF_SYSTEM_ENDIAN := BDF_LITTLE_ENDIAN; size_t := W4;
              NDEBUG := false |}
           BDF_BIG_ENDIAN (StdString [Byte.x41; Byte.x42]) [Byte.x43] []).
  simpl. intros [H | [H | []]]; discriminate H.
Defined.

(** *** Pairs *)

Section Composite.
Context (plat : Platform) (E : Endian).

Lemma shl_pair_run {T1 T2} `{Codec T1, Codec T2} (a : T1) (b : T2) ss :
  RoundTrips plat E a -> RoundTrips plat E b ->
  shl_pair plat E (a, b) ss = Ok tt (ss ++ wire plat E a ++ wire plat E b).
Proof.
  intros [Ha _] [Hb _]. unfold shl_pair. simpl.
  erewrite bind_Ok by apply Ha.
  rewrite Hb, <- app_assoc. reflexivity.
Qed.

Lemma wire_pair {T1 T2} `{Codec T1, Codec T2} (a : T1) (b : T2) :
  RoundTrips plat E a -> RoundTrips plat E b ->
  wire plat E (a, b) = wire plat E a ++ wire plat E b.
Proof.
  intros Ha Hb. unfold wire at 1, wire_of.
  change (shl plat E (a, b) []) with (shl_pair plat E (a, b) []).
  rewrite shl_pair_run by assumption. reflexivity.
Qed.

Lemma shr_pair_run {T1 T2} `{Codec T1, Codec T2} (a : T1) (b : T2) p rest :
  RoundTrips plat E a -> RoundTrips plat E b ->
  shr_pair plat E p (wire plat E a ++ wire plat E b ++ rest) =
  Ok (a, b) rest.
Proof.
  intros [_ Ha] [_ Hb]. unfold shr_pair.
  erewrite bind_Ok by apply Ha.
  erewrite bind_Ok by apply Hb.
  reflexivity.
Qed.

Lemma pair_roundtrips {T1 T2} `{Codec T1, Codec T2} (a : T1) (b : T2) :
  RoundTrips plat E a -> RoundTrips plat E b -> RoundTrips plat E (a, b).
Proof.
  intros Ha Hb. split.
  - intros ss. rewrite wire_pair by assumption.
    apply shl_pair_run; assumption.
  - intros dest rest. rewrite wire_pair, <- app_assoc by assumption.
    apply shr_pair_run; assumption.
Qed.

(** *** Sequences *)

Lemma for_each_run {T} (body : T -> IO unit) (f : T -> list byte) c :
  Forall (fun x => forall ss, body x ss = Ok tt (ss ++ f x)) c ->
  forall ss, for_each body c ss = Ok tt (ss ++ flat_map f c).
Proof.
  induction 1 as [|x c Hx _ IH]; intros ss; simpl.
  - rewrite app_nil_r. reflexivity.
  - erewrite bind_Ok by apply Hx.
    rewrite IH, <- app_assoc. reflexivity.
Qed.

Lemma shl_vector_run {T} `{Codec T} (vv : list T) ss :
  Forall (RoundTrips plat E) vv ->
  shl_vector plat E vv ss =
  Ok tt (ss ++ wire plat E (size_of_nat plat (length vv))
            ++ flat_map (wire plat E) vv).
Proof.
  intros Hvv. unfold shl_vector.
  erewrite bind_Ok by apply shl_size_run.
  rewrite (for_each_run _ (wire plat E)).
  - rewrite <- app_assoc. reflexivity.
  - eapply Forall_impl; [exact Hvv|]. intros x [Hx _]. exact Hx.
Qed.

Lemma wire_vector {T} `{Codec T} (vv : list T) :
  Forall (RoundTrips plat E) vv ->
  wire plat E vv =
  wire plat E (size_of_nat plat (length vv)) ++ flat_map (wire plat E) vv.
Proof.
  intros Hvv. unfold wire at 1, wire_of.
  change (shl plat E vv []) with (shl_vector plat E vv []).
  rewrite shl_vector_run by assumption. reflexivity.
Qed.

(** The loop fills the slots from the left: with [done] already read and
    [slots] still to go, it ends with [done ++ xs]. *)
Lemma shr_vector_loop_run {T} `{Codec T} (xs : list T) :
  Forall (RoundTrips plat E) xs ->
  forall done slots rest,
    length slots = length xs ->
    shr_vector_loop plat E (length xs) (length done) (done ++ slots)
      (flat_map (wire plat E) xs ++ rest) =
    Ok (done ++ xs) rest.
Proof.
  induction 1 as [|x xs [_ Hx] _ IH]; intros done slots rest Hlen.
  - destruct slots; [reflexivity | discriminate Hlen].
  - destruct slots as [|d slots]; [discriminate Hlen|].
    simpl in Hlen. injection Hlen as Hlen.
    simpl. rewrite <- app_assoc.
    erewrite bind_Ok by apply Hx.
    replace (<[length done := x]> (done ++ d :: slots))
      with ((done ++ [x]) ++ slots).
    + replace (S (length done)) with (length (done ++ [x]))
        by (rewrite length_app; simpl; lia).
      rewrite IH by exact Hlen.
      rewrite <- app_assoc. reflexivity.
    + rewrite <- (Nat.add_0_r (length done)), insert_app_r.
      rewrite <- app_assoc. reflexivity.
Qed.

Lemma vector_roundtrips {T} `{Codec T} (vv : list T) :
  fits_size_t plat (length vv) ->
  Forall (RoundTrips plat E) vv ->
  RoundTrips plat E vv.
Proof.
  intros Hfit Hvv. split.
  - intros ss. rewrite wire_vector by assumption.
    apply shl_vector_run, Hvv.
  - intros dest rest. rewrite wire_vector, <- app_assoc by assumption.
    change (shr plat E dest) with (shr_vector plat E dest).
    unfold shr_vector.
    erewrite bind_Ok by (apply shr_size_run, Hfit).
    rewrite nat_of_size_of_nat.
    apply (shr_vector_loop_run vv Hvv []).
    apply length_resize.
Qed.
End Composite.

(** *** Mappings *)

Section Mapping.
Context (plat : Platform) (E : Endian).
Context {K V : Type} `{Codec K, Codec V, Less K}.

Lemma entry_roundtrips (kv : K * V) :
  EntryRoundTrips plat E kv -> RoundTrips plat E kv.
Proof. destruct kv as [k v]. intros [Hk Hv]. now apply pair_roundtrips. Qed.

Lemma shl_map_run (mm : std_map K V) ss :
  Forall (EntryRoundTrips plat E) (entries mm) ->
  shl_map plat E mm ss =
  Ok tt (ss ++ wire plat E (size_of_nat plat (length (entries mm)))
            ++ flat_map (wire plat E) (entries mm)).
Proof.
  intros Hmm. unfold shl_map.
  erewrite bind_Ok by apply shl_size_run.
  rewrite (for_each_run _ (wire plat E)).
  - rewrite <- app_assoc. reflexivity.
  - eapply Forall_impl; [exact Hmm|].
    intros kv Hkv. apply (entry_roundtrips kv Hkv).
Qed.

Lemma wire_map (mm : std_map K V) :
  Forall (EntryRoundTrips plat E) (entries mm) ->
  wire plat E mm =
  wire plat E (size_of_nat plat (length (entries mm)))
    ++ flat_map (wire plat E) (entries mm).
Proof.
  intros Hmm. unfold wire at 1, wire_of.
  change (shl plat E mm []) with (shl_map plat E mm []).
  rewrite shl_map_run by assumption. reflexivity.
Qed.

(** A key above every key present goes to the end. *)
Lemma subscript_assign_last (k : K) (v : V) mm :
  Forall (fun a => less a.1 k = true) mm ->
  subscript_assign k v mm = mm ++ [(k, v)].
Proof.
  induction 1 as [|[k' v'] mm Hk' _ IH]; simpl.
  - reflexivity.
  - simpl in Hk'. rewrite Hk', IH. reflexivity.
Qed.

Lemma shr_map_loop_run (xs : list (K * V)) :
  Forall (EntryRoundTrips plat E) xs ->
  StronglySorted (fun a b => less a.1 b.1 = true) xs ->
  forall p acc rest,
    Forall (fun a => Forall (fun b => less a.1 b.1 = true) xs) acc ->
    shr_map_loop plat E (length xs) p acc
      (flat_map (wire plat E) xs ++ rest) =
    Ok (acc ++ xs) rest.
Proof.
  induction 1 as [|[k v] xs Hkv _ IH]; intros Hs p acc rest Hacc.
  - simpl. rewrite app_nil_r. reflexivity.
  - apply StronglySorted_inv in Hs as [Hs Hk].
    simpl. rewrite <- app_assoc.
    pose proof (proj2 (entry_roundtrips _ Hkv) p) as Hp.
    change (shr plat E p) with (shr_pair plat E p) in Hp.
    erewrite bind_Ok by apply Hp. simpl.
    rewrite subscript_assign_last.
    + rewrite IH; [rewrite <- app_assoc; reflexivity | exact Hs |].
      apply Forall_app. split.
      * eapply Forall_impl; [exact Hacc|].
        intros a Ha. apply Forall_cons in Ha. apply Ha.
      * constructor; [exact Hk | constructor].
    + eapply Forall_impl; [exact Hacc|].
      intros a Ha. apply Forall_cons in Ha. apply Ha.
Qed.

Lemma map_roundtrips (mm : std_map K V) :
  fits_size_t plat (length (entries mm)) ->
  map_ok mm ->
  Forall (EntryRoundTrips plat E) (entries mm) ->
  RoundTrips plat E mm.
Proof.
  intros Hfit Hok Hmm. split.
  - intros ss. rewrite wire_map by assumption. apply shl_map_run, Hmm.
  - intros dest rest. rewrite wire_map, <- app_assoc by assumption.
    change (shr plat E dest) with (shr_map plat E dest).
    unfold shr_map.
    erewrite bind_Ok by (apply shr_size_run, Hfit).
    rewrite nat_of_size_of_nat.
    erewrite bind_Ok.
    2:{ apply (shr_map_loop_run _ Hmm Hok). constructor. }
    destruct mm. reflexivity.
Qed.
End Mapping.

Lemma fits_size_t_2 plat : fits_size_t plat 2.
Proof. unfold fits_size_t. destruct (size_t plat); reflexivity. Qed.

(** X26: for a key and two values that round-trip, and a comparison under
    which the key is not less than itself: write the count 2, then the pair
    [(k, v1)], then the pair [(k, v2)], and decode a mapping from those
    bytes; the result holds [k] once, with [v2].  The later entry has
    overwritten the earlier one. *)
Theorem duplicate_key_last_wins plat E {K V} `{Codec K, Codec V, Less K}
    (k : K) (v1 v2 : V) (dest : std_map K V) :
  RoundTrips plat E k ->
  RoundTrips plat E v1 ->
  RoundTrips plat E v2 ->
  less k k = false ->
  exists mm,
    (shl_scalar plat E (size_of_nat plat 2) ;;
     shl_pair plat E (k, v1) ;;
     shl_pair plat E (k, v2) ;;
     shr plat E dest) [] = Ok mm [] /\
    find k (entries mm) = Some v2 /\
    entries mm = [(k, v2)].
Proof.
  intros Hk Hv1 Hv2 Hirr. exists (StdMap [(k, v2)]). split.
  - erewrite bind_Ok by apply shl_size_run.
    erewrite bind_Ok by (apply shl_pair_run; assumption).
    erewrite bind_Ok by (apply shl_pair_run; assumption).
    change (shr plat E dest) with (shr_map plat E dest).
    unfold shr_map. simpl app. rewrite <- !app_assoc.
    erewrite bind_Ok by (apply shr_size_run, fits_size_t_2).
    rewrite nat_of_size_of_nat.
    erewrite bind_Ok; [reflexivity|].
    cbn [shr_map_loop].
    erewrite bind_Ok by (apply shr_pair_run; assumption).
    rewrite <- (app_nil_r (wire plat E v2)).
    erewrite bind_Ok by (apply shr_pair_run; assumption).
    cbn [subscript_assign clear fst snd]. rewrite Hirr. reflexivity.
  - simpl. rewrite Hirr. split; reflexivity.
Qed.

Lemma duplicate_key_last_wins_witness :
  let plat := {| BDF_SYSTEM_ENDIAN := BDF_LITTLE_ENDIAN; size_t := W8;
                 NDEBUG := false |} in
  let k : scalar W1 := Scalar 5 in
  let v1 : scalar W2 := Scalar 1 in
  let v2 : scalar W2 := Scalar 2 in
  exists mm,
    (shl_scalar plat BDF_BIG_ENDIAN (size_of_nat plat 2) ;;
     shl_pair plat BDF_BIG_ENDIAN (k, v1) ;;
     shl_pair plat BDF_BIG_ENDIAN (k, v2) ;;
     shr plat BDF_BIG_ENDIAN (StdMap [(Scalar 9, Scalar 9)])) [] = Ok mm [] /\
    find k (entries mm) = Some v2 /\
    entries mm = [(k, v2)].
Proof.
  intros plat k v1 v2.
  apply (duplicate_key_last_wins plat BDF_BIG_ENDIAN k v1 v2).
  - apply scalar_roundtrips. unfold in_range. simpl. lia.
  - apply scalar_roundtrips. unfold in_range. simpl. lia.
  - apply scalar_roundtrips. unfold in_range. simpl. lia.
  - reflexivity.
Defined.

(** X27: a vector, and a map whose entries are in key order, come back from
    their own encoding with the same elements in the same order, respectively
    the same entries, whatever the destination held; this covers the empty
    containers.  It holds when the element, key and value types round-trip on
    the values contained.  The encoding is the count followed by the
    elements in iteration order, and the decoder, on any input, reads the
    count [n], replaces the destination by [n] value-initialised elements
    (respectively by the empty map) and then reads [n] elements from index 0
    upwards. *)
Theorem container_round_trip plat E {T K V} `{Codec T, Codec K, Codec V, Less K}
    (vv dest_vv : list T) (mm dest_mm : std_map K V) :
  fits_size_t plat (length vv) ->
  Forall (RoundTrips plat E) vv ->
  fits_size_t plat (length (entries mm)) ->
  map_ok mm ->
  Forall (EntryRoundTrips plat E) (entries mm) ->
  (encode_then_decode plat E vv dest_vv = Ok vv [] /\
   wire plat E vv =
     wire plat E (size_of_nat plat (length vv)) ++ flat_map (wire plat E) vv /\
   forall ss,
     shr plat E dest_vv ss =
     (n <- shr_scalar plat E (size_t_n plat) ;;
      shr_vector_loop plat E (nat_of_size plat n) 0
        (replicate (nat_of_size plat n) init)) ss) /\
  (encode_then_decode plat E mm dest_mm = Ok mm [] /\
   wire plat E mm =
     wire plat E (size_of_nat plat (length (entries mm)))
       ++ flat_map (wire plat E) (entries mm) /\
   forall ss,
     shr plat E dest_mm ss =
     (n <- shr_scalar plat E (size_t_n plat) ;;
      l <- shr_map_loop plat E (nat_of_size plat n) (init, init) [] ;;
      ret (StdMap l)) ss).
Proof.
  intros Hfv Hvv Hfm Hok Hmm. split; split; [| split | | split].
  - apply roundtrips_run, vector_roundtrips; assumption.
  - apply wire_vector, Hvv.
  - intros ss. change (shr plat E dest_vv) with (shr_vector plat E dest_vv).
    unfold shr_vector, bind.
    destruct (shr_scalar plat E (size_t_n plat) ss); [|reflexivity].
    unfold clear. rewrite resize_nil. reflexivity.
  - apply roundtrips_run, map_roundtrips; assumption.
  - apply wire_map, Hmm.
  - intros ss. reflexivity.
Qed.

Lemma container_round_trip_witness :
  let plat := {| BDF_SYSTEM_ENDIAN := BDF_LITTLE_ENDIAN; size_t := W8;
                 NDEBUG := false |} in
  let vv : list (scalar W4) := [Scalar 0x12345678; Scalar 0; Scalar 0xFFFFFFFF] in
  let mm : std_map (scalar W2) std_string :=
    StdMap [(Scalar 1, StdString [Byte.x41; Byte.x00; Byte.x42]);
            (Scalar 7, StdString [Byte.x43])] in
  encode_then_decode plat BDF_BIG_ENDIAN vv [Scalar 3] = Ok vv [] /\
  encode_then_decode plat BDF_BIG_ENDIAN mm (StdMap [(Scalar 2, StdString [])])
    = Ok mm [].
Proof.
  intros plat vv mm.
  assert (Hs : forall w (z : Z), 0 <= z < 2 ^ (Z.of_nat (sizeof w) * 8) ->
                 RoundTrips plat BDF_BIG_ENDIAN (Scalar (w := w) z)).
  { intros w z Hz. apply scalar_roundtrips. exact Hz. }
  destruct (container_round_trip plat BDF_BIG_ENDIAN vv [Scalar 3]
              mm (StdMap [(Scalar 2, StdString [])]))
    as [[Hv _] [Hm _]].
  - reflexivity.
  - repeat (apply List.Forall_cons; [apply Hs; simpl; lia|]).
    apply List.Forall_nil.
  - reflexivity.
  - repeat constructor.
  - assert (Hstr : forall cs, cs <> [] -> fits_size_t plat (length cs) ->
                     RoundTrips plat BDF_BIG_ENDIAN (StdString cs)).
    { intros cs Hne Hfit. apply string_roundtrips; [right; exact Hne | exact Hfit]. }
    repeat (apply List.Forall_cons;
            [split; [apply Hs; simpl; lia
                    | apply Hstr; [discriminate | reflexivity]]|]).
    apply List.Forall_nil.
  - split; assumption.
Defined.

(** ** Further properties: the primitive codec *)

Lemma wire_scalar_tag plat E w (v : scalar w) :
  wire plat E v =
  match E with
  | BDF_LITTLE_ENDIAN => le_split (sizeof w) (bits v)
  | BDF_BIG_ENDIAN => rev (le_split (sizeof w) (bits v))
  end.
Proof.
  rewrite wire_scalar, object_bytes_Swapper.
  unfold swap_enabled, object_bytes.
  destruct E, (BDF_SYSTEM_ENDIAN plat); simpl;
    rewrite ?swapBytes_rev by (rewrite ?length_rev; apply length_le_split);
    rewrite ?rev_involutive; reflexivity.
Qed.

Lemma wire_scalar_length plat E w (v : scalar w) :
  length (wire plat E v) = sizeof w.
Proof.
  rewrite wire_scalar_tag.
  destruct E; rewrite ?length_rev; apply length_le_split.
Qed.

Lemma Swapper_twice_tags plat E1 E2 w (v : scalar w) :
  in_range v ->
  Swapper plat (swap_enabled plat E2) (Swapper plat (swap_enabled plat E1) v) =
  if Endian_eqb E1 E2 then v else swapBytes_T plat v.
Proof.
  intros Hv. unfold swap_enabled.
  destruct E1, E2, (BDF_SYSTEM_ENDIAN plat); simpl;
    try reflexivity; apply swapBytes_T_involutive, Hv.
Qed.

Lemma shr_scalar_wire plat E1 E2 w (v dest : scalar w) rest :
  in_range v ->
  shr_scalar plat E2 dest (wire plat E1 v ++ rest) =
  Ok (if Endian_eqb E1 E2 then v else swapBytes_T plat v) rest.
Proof.
  intros Hv.
  rewrite shr_scalar_run by apply wire_scalar_length.
  rewrite wire_scalar.
  rewrite of_object_bytes_object_bytes by apply Swapper_in_range, Hv.
  rewrite Swapper_twice_tags by exact Hv. reflexivity.
Qed.

(** X1: the bytes a scalar is written as depend on the tag alone, not on the
    host: under the little-endian tag they are the value's bytes from the
    least significant up, under the big-endian tag the same bytes from the
    most significant down.  Two hosts of different byte order therefore put
    the same bytes on the wire. *)
Theorem wire_scalar_portable plat1 plat2 E w (v : scalar w) :
  wire plat1 E v = wire plat2 E v /\
  wire plat1 BDF_LITTLE_ENDIAN v = le_split (sizeof w) (bits v) /\
  wire plat1 BDF_BIG_ENDIAN v = rev (le_split (sizeof w) (bits v)).
Proof.
  rewrite !wire_scalar_tag. repeat split; reflexivity.
Qed.

(** X2: a scalar written on one host and read on another, both serializers
    carrying the same tag, comes back unchanged, whatever the byte orders of
    the two hosts. *)
Theorem scalar_cross_host_round_trip plat1 plat2 E w (v dest : scalar w)
    (rest : Stream) :
  in_range v ->
  shr plat2 E dest (wire plat1 E v ++ rest) = Ok v rest.
Proof.
  intros Hv.
  replace (wire plat1 E v) with (wire plat2 E v)
    by (rewrite !wire_scalar_tag; reflexivity).
  apply (proj2 (scalar_roundtrips plat2 E w v Hv)).
Qed.

Lemma scalar_cross_host_round_trip_witness :
  shr {| BDF_SYSTEM_ENDIAN := BDF_BIG_ENDIAN; size_t := W4; NDEBUG := true |}
      BDF_LITTLE_ENDIAN (Scalar (w := W4) 0)
      (wire {| BDF_SYSTEM_ENDIAN := BDF_LITTLE_ENDIAN; size_t := W8;
               NDEBUG := false |}
            BDF_LITTLE_ENDIAN (Scalar (w := W4) 0xCAFEBABE) ++ [Byte.xff]) =
  Ok (Scalar 0xCAFEBABE) [Byte.xff].
Proof.
  apply (scalar_cross_host_round_trip
           {| BDF_SYSTEM_ENDIAN := BDF_LITTLE_ENDIAN; size_t := W8;
              NDEBUG := false |}
           {| BDF_SYSTEM_ENDIAN := BDF_BIG_ENDIAN; size_t := W4;
              NDEBUG := true |}
           BDF_LITTLE_ENDIAN W4 (Scalar 0xCAFEBABE) (Scalar 0) [Byte.xff]).
  unfold in_range. simpl. lia.
Defined.

(** X3: a reader whose tag differs from the writer's gets no error: it
    returns the value with its bytes reversed and consumes the same bytes. *)
Theorem tag_mismatch_reads_swapped plat E1 E2 w (v dest : scalar w)
    (rest : Stream) :
  E1 <> E2 ->
  in_range v ->
  shr plat E2 dest (wire plat E1 v ++ rest) = Ok (swapBytes_T plat v) rest /\
  object_bytes plat (swapBytes_T plat v) = rev (object_bytes plat v).
Proof.
  intros Hne Hv. split; [|apply object_bytes_swapBytes_T].
  change (shr plat E2 dest) with (shr_scalar plat E2 dest).
  rewrite shr_scalar_wire by exact Hv.
  destruct E1, E2; simpl; try reflexivity; congruence.
Qed.

Lemma tag_mismatch_reads_swapped_witness :
  let plat := {| BDF_SYSTEM_ENDIAN := BDF_BIG_ENDIAN; size_t := W8;
                 NDEBUG := false |} in
  let v : scalar W2 := Scalar 0x0102 in
  shr plat BDF_BIG_ENDIAN (Scalar 0) (wire plat BDF_LITTLE_ENDIAN v ++ []) =
    Ok (swapBytes_T plat v) [] /\
  object_bytes plat (swapBytes_T plat v) = rev (object_bytes plat v).
Proof.
  intros plat v.
  apply (tag_mismatch_reads_swapped plat BDF_LITTLE_ENDIAN BDF_BIG_ENDIAN
           W2 v (Scalar 0) []).
  - discriminate.
  - unfold in_range. simpl. lia.
Defined.

Lemma assert_sizeof plat w : NDEBUG plat || (0 <? sizeof w)%nat = true.
Proof. destruct w; apply orb_true_r. Qed.

Lemma shr_scalar_short plat E w (dest : scalar w) ss :
  (length ss < sizeof w)%nat -> shr_scalar plat E dest ss = Err StreamFault.
Proof.
  intros Hlt. unfold shr_scalar, read, bind, assert.
  rewrite assert_sizeof. unfold ss_read.
  destruct (Nat.leb_spec (sizeof w) (length ss)); [lia | reflexivity].
Qed.

Lemma wire_of_decoded plat E w bs :
  length bs = sizeof w ->
  wire plat E (Swapper plat (swap_enabled plat E) (of_object_bytes plat w bs))
  = bs.
Proof.
  intros H. rewrite wire_scalar.
  rewrite Swapper_involutive by (apply of_object_bytes_in_range, H).
  apply object_bytes_of_object_bytes, H.
Qed.

Lemma shr_scalar_inv plat E w (dest v : scalar w) ss rest :
  shr_scalar plat E dest ss = Ok v rest ->
  ss = wire plat E v ++ rest /\ in_range v.
Proof.
  intros H.
  destruct (Nat.le_gt_cases (sizeof w) (length ss)) as [Hle | Hlt].
  - rewrite <- (take_drop (sizeof w) ss) in H.
    rewrite shr_scalar_run in H by (rewrite length_take; lia).
    injection H as Hv Hrest. subst v rest.
    rewrite wire_of_decoded by (rewrite length_take; lia).
    split; [symmetry; apply take_drop|].
    apply Swapper_in_range, of_object_bytes_in_range.
    rewrite length_take. lia.
  - rewrite shr_scalar_short in H by exact Hlt. discriminate H.
Qed.

(** X4: the primitive reader validates nothing.  Any [sizeof(T)] bytes
    decode, to the one value whose encoding under the same tag is those
    bytes, and the bytes after them are left on the stream. *)
Theorem scalar_decode_any_bytes plat E w (dest : scalar w)
    (bs rest : list byte) :
  length bs = sizeof w ->
  exists v,
    shr plat E dest (bs ++ rest) = Ok v rest /\
    in_range v /\
    wire plat E v = bs.
Proof.
  intros H. eexists. split; [apply shr_scalar_run, H|]. split.
  - apply Swapper_in_range, of_object_bytes_in_range, H.
  - apply wire_of_decoded, H.
Qed.

Lemma scalar_decode_any_bytes_witness :
  let plat := {| BDF_SYSTEM_ENDIAN := BDF_LITTLE_ENDIAN; size_t := W8;
                 NDEBUG := false |} in
  exists v : scalar W2,
    shr plat BDF_BIG_ENDIAN (Scalar 7) ([Byte.xff; Byte.x80] ++ [Byte.x01]) =
      Ok v [Byte.x01] /\
    in_range v /\
    wire plat BDF_BIG_ENDIAN v = [Byte.xff; Byte.x80].
Proof.
  intros plat.
  apply (scalar_decode_any_bytes plat BDF_BIG_ENDIAN W2 (Scalar 7)
           [Byte.xff; Byte.x80] [Byte.x01]).
  reflexivity.
Defined.

(** X5: a successful primitive read took exactly the encoding of the value
    it returns from the front of the stream: the stream was that encoding
    followed by what is left. *)
Theorem scalar_decode_sound plat E w (dest v : scalar w) (ss rest : Stream) :
  shr plat E dest ss = Ok v rest ->
  ss = wire plat E v ++ rest /\
  in_range v /\
  length ss = (sizeof w + length rest)%nat.
Proof.
  intros H. apply shr_scalar_inv in H as [Hss Hv].
  split; [exact Hss|]. split; [exact Hv|].
  rewrite Hss at 1. rewrite length_app, wire_scalar_length. reflexivity.
Qed.

Lemma scalar_decode_sound_witness :
  let plat := {| BDF_SYSTEM_ENDIAN := BDF_LITTLE_ENDIAN; size_t := W8;
                 NDEBUG := false |} in
  let ss := [Byte.x12; Byte.x34; Byte.x56] in
  let v : scalar W2 := Scalar 0x1234 in
  ss = wire plat BDF_BIG_ENDIAN v ++ [Byte.x56] /\
  in_range v /\
  length ss = (sizeof W2 + length [Byte.x56])%nat.
Proof.
  intros plat ss v.
  apply (scalar_decode_sound plat BDF_BIG_ENDIAN W2 (Scalar 0) v ss
           [Byte.x56]).
  reflexivity.
Defined.

(** ** Further properties: the byte-order transform *)

(** X8: [swapBytes<nBytes>] reverses the first [nBytes] chars at the pointer
    and touches nothing behind them. *)
Theorem swapBytes_reverses_prefix w (src tail : list byte) :
  length src = sizeof w ->
  swapBytes w (src ++ tail) = rev src ++ tail.
Proof.
  intros H.
  destruct w; simpl in H;
    repeat (destruct src as [|? src]; try discriminate H); reflexivity.
Qed.

Lemma swapBytes_reverses_prefix_witness :
  swapBytes W4 ([Byte.x01; Byte.x02; Byte.x03; Byte.x04] ++ [Byte.x05]) =
  rev [Byte.x01; Byte.x02; Byte.x03; Byte.x04] ++ [Byte.x05].
Proof.
  apply (swapBytes_reverses_prefix W4
           [Byte.x01; Byte.x02; Byte.x03; Byte.x04] [Byte.x05]).
  reflexivity.
Defined.

(** X9: what the swap does to a value is the same on both hosts: the result
    is the number whose little-endian bytes are those of the operand in
    reverse, and it is again a value of the same width. *)
Theorem swapBytes_T_portable plat1 plat2 w (v : scalar w) :
  swapBytes_T plat1 v = swapBytes_T plat2 v /\
  swapBytes_T plat1 v =
    Scalar (le_combine (rev (le_split (sizeof w) (bits v)))) /\
  in_range (swapBytes_T plat1 v).
Proof.
  assert (Hc : forall plat,
             swapBytes_T plat v =
             Scalar (le_combine (rev (le_split (sizeof w) (bits v))))).
  { intros plat. unfold swapBytes_T.
    rewrite swapBytes_rev by apply object_bytes_length.
    unfold of_object_bytes, object_bytes.
    destruct (BDF_SYSTEM_ENDIAN plat); rewrite ?rev_involutive; reflexivity. }
  split; [rewrite !Hc; reflexivity|].
  split; [apply Hc | apply swapBytes_T_in_range].
Qed.

(** ** Further properties: raw buffers and strings *)

Lemma read_inv plat str n ss out rest :
  read plat str n ss = Ok out rest ->
  (n <= length ss)%nat /\
  out = take n ss ++ drop n str /\
  rest = drop n ss /\
  NDEBUG plat || (0 <? n)%nat = true.
Proof.
  unfold read, bind, assert, ss_read. intros H.
  destruct (NDEBUG plat || (0 <? n)%nat); [|discriminate H].
  destruct (Nat.leb_spec n (length ss)); [|discriminate H].
  injection H as <- <-. auto.
Qed.

Lemma size_of_nat_of_size plat (n : scalar (size_t plat)) :
  in_range n -> size_of_nat plat (nat_of_size plat n) = n.
Proof.
  intros [H0 _]. destruct n as [z]. simpl in H0.
  unfold size_of_nat, nat_of_size. simpl. rewrite Z2Nat.id by exact H0.
  reflexivity.
Qed.

Lemma fits_nat_of_size plat (n : scalar (size_t plat)) :
  in_range n -> fits_size_t plat (nat_of_size plat n).
Proof.
  intros [H0 H1]. unfold fits_size_t, nat_of_size.
  rewrite Z2Nat.id by exact H0. exact H1.
Qed.

(** X10: [write] followed by [read] of the same count hands the chars over
    unchanged and leaves the rest of the destination buffer as it was.  The
    count must be positive unless assertions are compiled out. *)
Theorem raw_write_read plat (str buf : list byte) :
  NDEBUG plat = true \/ str <> [] ->
  (write str (length str) ;; read plat buf (length str)) [] =
  Ok (str ++ drop (length str) buf) [].
Proof.
  intros Hne.
  erewrite bind_Ok by (apply write_run; reflexivity). simpl.
  unfold read, bind, assert, ss_read.
  replace (NDEBUG plat || (0 <? length str)%nat) with true.
  - rewrite Nat.leb_refl.
    rewrite (take_ge str (length str)), (drop_ge str (length str)) by lia.
    reflexivity.
  - symmetry. destruct Hne as [-> | Hne]; [reflexivity|].
    destruct str; [congruence | apply orb_true_r].
Qed.

Lemma raw_write_read_witness :
  let plat := {| BDF_SYSTEM_ENDIAN := BDF_LITTLE_ENDIAN; size_t := W8;
                 NDEBUG := false |} in
  (write [Byte.x41; Byte.x42] 2 ;;
   read plat [Byte.x01; Byte.x02; Byte.x03] 2) [] =
  Ok [Byte.x41; Byte.x42; Byte.x03] [].
Proof.
  intros plat.
  apply (raw_write_read plat [Byte.x41; Byte.x42]
           [Byte.x01; Byte.x02; Byte.x03]).
  right. discriminate.
Defined.

(** X11: [read(str, 0)] is rejected by the assertion whatever the stream
    holds; with [NDEBUG] it returns at once with buffer and stream as they
    were. *)
Theorem raw_read_zero plat (buf : list byte) (ss : Stream) :
  read plat buf 0 ss =
  if NDEBUG plat then Ok buf ss else Err AssertionFailed.
Proof.
  unfold read, bind, assert, ss_read.
  destruct (NDEBUG plat); reflexivity.
Qed.

(** X12: every [std::string] that is non-empty, or any at all when
    assertions are compiled out, round-trips, embedded NUL chars included:
    its encoding is the length as a [size_t] followed by the chars, and the
    reader returns it from any stream that starts with that encoding,
    whatever the destination string held, leaving the rest. *)
Theorem string_round_trip plat E (s dest : std_string) (rest : Stream) :
  NDEBUG plat = true \/ chars s <> [] ->
  fits_size_t plat (length (chars s)) ->
  shr plat E dest (wire plat E s ++ rest) = Ok s rest /\
  encode_then_decode plat E s dest = Ok s [] /\
  wire plat E s =
    wire plat E (size_of_nat plat (length (chars s))) ++ chars s.
Proof.
  intros Hne Hfit.
  pose proof (string_roundtrips plat E s Hne Hfit) as Hrt.
  split; [apply (proj2 Hrt)|].
  split; [apply roundtrips_run, Hrt | apply wire_string].
Qed.

Lemma string_round_trip_witness :
  let plat := {| BDF_SYSTEM_ENDIAN := BDF_LITTLE_ENDIAN; size_t := W4;
                 NDEBUG := false |} in
  let s := StdString [Byte.x41; Byte.x00; Byte.x42] in
  let dest := StdString [Byte.x58; Byte.x59; Byte.x5a; Byte.x5a; Byte.x5a] in
  shr plat BDF_BIG_ENDIAN dest (wire plat BDF_BIG_ENDIAN s ++ [Byte.x07]) =
    Ok s [Byte.x07] /\
  encode_then_decode plat BDF_BIG_ENDIAN s dest = Ok s [] /\
  wire plat BDF_BIG_ENDIAN s =
    wire plat BDF_BIG_ENDIAN (size_of_nat plat 3)
      ++ [Byte.x41; Byte.x00; Byte.x42].
Proof.
  intros plat s dest.
  apply (string_round_trip plat BDF_BIG_ENDIAN s dest [Byte.x07]).
  - right. discriminate.
  - reflexivity.
Defined.

Lemma shr_string_inv plat E (dest s : std_string) ss rest :
  shr_string plat E dest ss = Ok s rest ->
  ss = wire plat E s ++ rest /\ fits_size_t plat (length (chars s)).
Proof.
  unfold shr_string. unfold bind at 1.
  destruct (shr_scalar plat E (size_t_n plat) ss) as [n ss1|] eqn:Hn;
    [|discriminate].
  apply shr_scalar_inv in Hn as [Hss Hr].
  unfold bind.
  destruct (read plat _ (nat_of_size plat n) ss1) as [out ss2|] eqn:Hrd;
    [|discriminate].
  intros Hs. injection Hs as <- <-.
  apply read_inv in Hrd as (Hle & Hout & Hrest & _).
  rewrite drop_ge in Hout by (rewrite length_resize; lia).
  rewrite app_nil_r in Hout. subst out ss2.
  assert (Hlen : length (take (nat_of_size plat n) ss1) = nat_of_size plat n)
    by (rewrite length_take; lia).
  rewrite wire_string. simpl. rewrite Hlen.
  rewrite size_of_nat_of_size by exact Hr.
  split; [|apply fits_nat_of_size, Hr].
  rewrite <- app_assoc, take_drop. exact Hss.
Qed.

(** X13: a successful [std::string] read consumed exactly the encoding of
    the string it returns: the stream was that string's length prefix and
    chars followed by what is left.  No other bytes decode to it. *)
Theorem string_decode_sound plat E (dest s : std_string) (ss rest : Stream) :
  shr plat E dest ss = Ok s rest ->
  ss = wire plat E s ++ rest /\
  fits_size_t plat (length (chars s)).
Proof. apply shr_string_inv. Qed.

Lemma string_decode_sound_witness :
  let plat := {| BDF_SYSTEM_ENDIAN := BDF_LITTLE_ENDIAN; size_t := W2;
                 NDEBUG := false |} in
  let ss := [Byte.x01; Byte.x00; Byte.x41; Byte.x42] in
  let s := StdString [Byte.x41] in
  ss = wire plat BDF_LITTLE_ENDIAN s ++ [Byte.x42] /\
  fits_size_t plat (length (chars s)).
Proof.
  intros plat ss s.
  apply (string_decode_sound plat BDF_LITTLE_ENDIAN (StdString []) s ss
           [Byte.x42]).
  reflexivity.
Defined.

(** ** Further properties: literals and char buffers *)

Lemma shl_cstr_run plat E (s junk : list byte) ss :
  ~ In Byte.x00 s ->
  shl_cstr plat E (s ++ Byte.x00 :: junk) ss =
  Ok tt (ss ++ wire plat E (size_of_nat plat (length s)) ++ s).
Proof.
  intros Hs. unfold shl_cstr.
  rewrite strlen_terminated by exact Hs.
  erewrite bind_Ok by apply shl_size_run.
  unfold write, ss_write.
  rewrite take_app_length, <- app_assoc. reflexivity.
Qed.

Lemma read_sized_run plat E (buf bs : list byte) rest :
  fits_size_t plat (length bs) ->
  read_sized plat E buf
    (wire plat E (size_of_nat plat (length bs)) ++ bs ++ rest) =
  Ok (bs ++ drop (length bs) buf, length bs) rest.
Proof.
  intros Hfit. unfold read_sized.
  erewrite bind_Ok by (apply shr_size_run, Hfit).
  rewrite nat_of_size_of_nat.
  unfold bind, ss_read. rewrite length_app.
  destruct (Nat.leb_spec (length bs) (length bs + length rest)); [|lia].
  rewrite take_app_length, drop_app_length. reflexivity.
Qed.

(** X15: [size_t read(char * str)], given a buffer that can hold the chars,
    takes back what the string writer wrote: it returns the length, puts the
    chars at the front of the buffer and leaves the buffer's remaining chars
    alone.  There is no assertion on this path, so the empty string is read
    as well, in every build. *)
Theorem sized_read_takes_string plat E (s : std_string) (buf : list byte)
    (rest : Stream) :
  fits_size_t plat (length (chars s)) ->
  (length (chars s) <= length buf)%nat ->
  read_sized plat E buf (wire plat E s ++ rest) =
  Ok (chars s ++ drop (length (chars s)) buf, length (chars s)) rest.
Proof.
  intros Hfit _. rewrite wire_string, <- app_assoc.
  apply read_sized_run, Hfit.
Qed.

Lemma sized_read_takes_string_witness :
  let plat := {| BDF_SYSTEM_ENDIAN := BDF_LITTLE_ENDIAN; size_t := W8;
                 NDEBUG := false |} in
  read_sized plat BDF_BIG_ENDIAN [Byte.x58; Byte.x59]
    (wire plat BDF_BIG_ENDIAN (StdString []) ++ [Byte.x07]) =
  Ok ([Byte.x58; Byte.x59], 0%nat) [Byte.x07].
Proof.
  intros plat.
  apply (sized_read_takes_string plat BDF_BIG_ENDIAN (StdString [])
           [Byte.x58; Byte.x59] [Byte.x07]).
  - reflexivity.
  - simpl. lia.
Defined.

(** X16: a literal written with [s << "..."] and read with
    [s >> char_buffer] into a buffer of at least one char more than its
    length comes back as a C string: the chars, then a NUL, then the old
    tail of the buffer; [strlen] of the result is the original length.  This
    holds for the empty literal too. *)
Theorem literal_round_trip plat E (s junk buf : list byte) :
  ~ In Byte.x00 s ->
  fits_size_t plat (length s) ->
  (length s < length buf)%nat ->
  (shl_cstr plat E (s ++ Byte.x00 :: junk) ;; shr_cstr plat E buf) [] =
    Ok (s ++ Byte.x00 :: drop (S (length s)) buf) [] /\
  strlen (s ++ Byte.x00 :: drop (S (length s)) buf) = length s.
Proof.
  intros Hs Hfit Hcap. split; [|apply strlen_terminated, Hs].
  erewrite bind_Ok by (apply shl_cstr_run, Hs). simpl app.
  unfold shr_cstr.
  replace (wire plat E (size_of_nat plat (length s)) ++ s)
    with (wire plat E (size_of_nat plat (length s)) ++ s ++ [])
    by (rewrite app_nil_r; reflexivity).
  erewrite bind_Ok by (apply read_sized_run, Hfit).
  unfold ret. simpl. f_equal.
  destruct (lookup_lt_is_Some_2 buf (length s) Hcap) as [c Hc].
  rewrite (drop_S buf c (length s) Hc).
  rewrite <- (Nat.add_0_r (length s)) at 1.
  rewrite insert_app_r. reflexivity.
Qed.

Lemma literal_round_trip_witness :
  let plat := {| BDF_SYSTEM_ENDIAN := BDF_LITTLE_ENDIAN; size_t := W8;
                 NDEBUG := false |} in
  (shl_cstr plat BDF_BIG_ENDIAN ([Byte.x68; Byte.x69] ++ Byte.x00 :: []) ;;
   shr_cstr plat BDF_BIG_ENDIAN [Byte.x2e; Byte.x2e; Byte.x2e; Byte.x2e]) [] =
    Ok ([Byte.x68; Byte.x69] ++
        Byte.x00 :: drop 3 [Byte.x2e; Byte.x2e; Byte.x2e; Byte.x2e]) [] /\
  strlen ([Byte.x68; Byte.x69] ++
          Byte.x00 :: drop 3 [Byte.x2e; Byte.x2e; Byte.x2e; Byte.x2e]) = 2%nat.
Proof.
  intros plat.
  apply (literal_round_trip plat BDF_BIG_ENDIAN [Byte.x68; Byte.x69] []
           [Byte.x2e; Byte.x2e; Byte.x2e; Byte.x2e]).
  - simpl. intros [H | [H | []]]; discriminate H.
  - reflexivity.
  - simpl. lia.
Defined.

(** ** Further properties: pairs and nesting *)

(** X17: a pair is written as its first member's encoding followed by its
    second's, with nothing in between or in front, and is read back member by
    member in that order, whatever the destination pair held. *)
Theorem pair_round_trip plat E {T1 T2} `{Codec T1, Codec T2}
    (a : T1) (b : T2) (dest : T1 * T2) (rest : Stream) :
  RoundTrips plat E a ->
  RoundTrips plat E b ->
  wire plat E (a, b) = wire plat E a ++ wire plat E b /\
  shr plat E dest (wire plat E (a, b) ++ rest) = Ok (a, b) rest.
Proof.
  intros Ha Hb. split; [apply wire_pair; assumption|].
  apply (proj2 (pair_roundtrips plat E a b Ha Hb)).
Qed.

Lemma pair_round_trip_witness :
  let plat := {| BDF_SYSTEM_ENDIAN := BDF_LITTLE_ENDIAN; size_t := W8;
                 NDEBUG := false |} in
  let a : scalar W2 := Scalar 0xBEEF in
  let b := StdString [Byte.x6f; Byte.x6b] in
  wire plat BDF_BIG_ENDIAN (a, b) =
    wire plat BDF_BIG_ENDIAN a ++ wire plat BDF_BIG_ENDIAN b /\
  shr plat BDF_BIG_ENDIAN (Scalar 1, StdString [Byte.x3f])
      (wire plat BDF_BIG_ENDIAN (a, b) ++ []) = Ok (a, b) [].
Proof.
  intros plat a b.
  apply (pair_round_trip plat BDF_BIG_ENDIAN a b
           (Scalar 1, StdString [Byte.x3f]) []).
  - apply scalar_roundtrips. unfold in_range. simpl. lia.
  - apply string_roundtrips; [right; discriminate | reflexivity].
Defined.

(** X18: composites nest.  A vector of maps from strings to pairs of
    integers round-trips exactly, provided the keys are non-empty strings
    (or assertions are compiled out) and each map is in key order. *)
Theorem nested_round_trip plat E (w1 w2 : Width)
    (vv dest : list (std_map std_string (scalar w1 * scalar w2))) :
  fits_size_t plat (length vv) ->
  Forall (fun mm =>
            fits_size_t plat (length (entries mm)) /\
            map_ok mm /\
            Forall (fun kv : std_string * (scalar w1 * scalar w2) =>
                      (NDEBUG plat = true \/ chars kv.1 <> []) /\
                      fits_size_t plat (length (chars kv.1)) /\
                      in_range kv.2.1 /\ in_range kv.2.2)
                   (entries mm)) vv ->
  encode_then_decode plat E vv dest = Ok vv [].
Proof.
  intros Hfit Hvv. apply roundtrips_run, vector_roundtrips; [exact Hfit|].
  eapply Forall_impl; [exact Hvv|].
  intros mm (Hfm & Hok & Hes). apply map_roundtrips; [exact Hfm | exact Hok |].
  eapply Forall_impl; [exact Hes|].
  intros [k [x y]] (Hne & Hfk & Hx & Hy). split.
  - apply string_roundtrips; assumption.
  - apply pair_roundtrips; apply scalar_roundtrips; assumption.
Qed.

Lemma nested_round_trip_witness :
  let plat := {| BDF_SYSTEM_ENDIAN := BDF_LITTLE_ENDIAN; size_t := W8;
                 NDEBUG := false |} in
  let vv : list (std_map std_string (scalar W4 * scalar W1)) :=
    [StdMap [(StdString [Byte.x61], (Scalar 1, Scalar 2));
             (StdString [Byte.x61; Byte.x62], (Scalar 3, Scalar 4))];
     StdMap []] in
  encode_then_decode plat BDF_BIG_ENDIAN vv [] = Ok vv [].
Proof.
  intros plat vv.
  apply (nested_round_trip plat BDF_BIG_ENDIAN W4 W1 vv []).
  - reflexivity.
  - apply List.Forall_cons; [|apply List.Forall_cons; [|apply List.Forall_nil]].
    + split; [reflexivity|]. split; [repeat constructor|].
      repeat (apply List.Forall_cons;
              [split; [right; discriminate|];
               split; [reflexivity|];
               split; unfold in_range; simpl; lia |]).
      apply List.Forall_nil.
    + split; [reflexivity|]. split; [constructor | apply List.Forall_nil].
Defined.

(** ** Further properties: the order of keys *)

Lemma scalar_less_order (w : Width) : StrictTotalOrder (scalar w).
Proof.
  split; unfold less, scalar_Less.
  - intros a. apply Z.ltb_irrefl.
  - intros a b c Hab Hbc. apply Z.ltb_lt in Hab, Hbc. apply Z.ltb_lt. lia.
  - intros [a] [b] Hab Hba. simpl in *.
    apply Z.ltb_ge in Hab, Hba. f_equal. lia.
Qed.
#[export] Existing Instance scalar_less_order.

Lemma lex_less_irrefl a : lex_less a a = false.
Proof.
  induction a as [|x a IH]; simpl; [reflexivity|].
  rewrite N.ltb_irrefl. exact IH.
Qed.

Lemma lex_less_trans a b c :
  lex_less a b = true -> lex_less b c = true -> lex_less a c = true.
Proof.
  revert b c. induction a as [|x a IH]; intros [|y b] [|z c]; simpl;
    try discriminate; try reflexivity.
  destruct (N.ltb_spec (Byte.to_N x) (Byte.to_N y)),
           (N.ltb_spec (Byte.to_N y) (Byte.to_N x)),
           (N.ltb_spec (Byte.to_N y) (Byte.to_N z)),
           (N.ltb_spec (Byte.to_N z) (Byte.to_N y)),
           (N.ltb_spec (Byte.to_N x) (Byte.to_N z)),
           (N.ltb_spec (Byte.to_N z) (Byte.to_N x));
    try discriminate; try reflexivity; try lia.
  apply IH.
Qed.

Lemma lex_less_total a b :
  lex_less a b = false -> lex_less b a = false -> a = b.
Proof.
  revert b. induction a as [|x a IH]; intros [|y b]; simpl;
    try discriminate; try reflexivity.
  destruct (N.ltb_spec (Byte.to_N x) (Byte.to_N y)),
           (N.ltb_spec (Byte.to_N y) (Byte.to_N x));
    try discriminate; try lia.
  intros Hab Hba. f_equal; [|apply IH; assumption].
  apply byte.to_N_inj. lia.
Qed.

Lemma string_less_order : StrictTotalOrder std_string.
Proof.
  split; unfold less, string_Less.
  - intros a. apply lex_less_irrefl.
  - intros a b c. apply lex_less_trans.
  - intros [a] [b] Hab Hba. simpl in *. f_equal.
    apply lex_less_total; assumption.
Qed.
#[export] Existing Instance string_less_order.

Section MapInvariants.
Context {K V : Type} `{Less K} `{!StrictTotalOrder K}.

Lemma less_asym (a b : K) : less a b = true -> less b a = false.
Proof.
  intros Hab. destruct (less b a) eqn:Hba; [|reflexivity].
  rewrite <- (less_irrefl a). symmetry. eapply less_trans; eassumption.
Qed.

Lemma subscript_assign_keys (Q : K -> Prop) (k : K) (v : V) mm :
  Forall (fun b => Q b.1) mm -> Q k ->
  Forall (fun b => Q b.1) (subscript_assign k v mm).
Proof.
  intros Hmm Hk. induction Hmm as [|[k' v'] mm Hk' Hmm IH]; simpl.
  - repeat constructor. exact Hk.
  - destruct (less k' k); [constructor; assumption|].
    destruct (less k k'); repeat constructor; assumption.
Qed.

Lemma subscript_assign_sorted (k : K) (v : V) mm :
  StronglySorted (fun a b : K * V => less a.1 b.1 = true) mm ->
  StronglySorted (fun a b : K * V => less a.1 b.1 = true)
    (subscript_assign k v mm).
Proof.
  induction 1 as [|[k' v'] mm Hs IH Hk']; simpl.
  - repeat constructor.
  - destruct (less k' k) eqn:H1.
    + constructor; [exact IH|].
      apply (subscript_assign_keys (fun x => less k' x = true));
        assumption.
    + destruct (less k k') eqn:H2.
      * constructor; [constructor; assumption|].
        constructor; [exact H2|].
        eapply Forall_impl; [exact Hk'|].
        intros b Hb. simpl in *. eapply less_trans; eassumption.
      * constructor; assumption.
Qed.

Lemma subscript_assign_length (k : K) (v : V) mm :
  (length (subscript_assign k v mm) <= S (length mm))%nat.
Proof.
  induction mm as [|[k' v'] mm IH]; simpl; [lia|].
  destruct (less k' k); [simpl; lia|].
  destruct (less k k'); simpl; lia.
Qed.

Lemma find_subscript_assign (k k' : K) (v : V) mm :
  find k (subscript_assign k' v mm) =
  if equiv k k' then Some v else find k mm.
Proof.
  unfold equiv. induction mm as [|[k0 v0] mm IH]; simpl.
  - destruct (less k' k), (less k k'); reflexivity.
  - destruct (less k0 k') eqn:H0.
    + simpl. destruct (less k0 k) eqn:H1; [exact IH|].
      destruct (less k k0) eqn:H2.
      * rewrite (less_trans k k0 k' H2 H0). reflexivity.
      * pose proof (less_total _ _ H2 H1) as ->.
        rewrite H0. reflexivity.
    + destruct (less k' k0) eqn:H3.
      * simpl. destruct (less k' k) eqn:H4.
        -- rewrite andb_false_r. reflexivity.
        -- destruct (less k k') eqn:H5; [|reflexivity]. simpl.
           pose proof (less_trans k k' k0 H5 H3) as H6.
           rewrite (less_asym _ _ H6), H6. reflexivity.
      * pose proof (less_total _ _ H0 H3) as ->.
        simpl. destruct (less k' k); [rewrite andb_false_r; reflexivity|].
        destruct (less k k'); reflexivity.
Qed.

Lemma find_fold_assign (k : K) (xs acc : list (K * V)) :
  find k (fold_left (fun m kv => subscript_assign kv.1 kv.2 m) xs acc) =
  match last_value k xs with
  | Some v => Some v
  | None => find k acc
  end.
Proof.
  revert acc. induction xs as [|[k' v'] xs IH]; intros acc; simpl.
  - reflexivity.
  - rewrite IH. destruct (last_value k xs); [reflexivity|].
    rewrite find_subscript_assign. destruct (equiv k k'); reflexivity.
Qed.

Lemma fold_assign_sorted (xs acc : list (K * V)) :
  StronglySorted (fun a b : K * V => less a.1 b.1 = true) acc ->
  StronglySorted (fun a b : K * V => less a.1 b.1 = true)
    (fold_left (fun m kv => subscript_assign kv.1 kv.2 m) xs acc).
Proof.
  revert acc. induction xs as [|[k v] xs IH]; intros acc Hacc; simpl.
  - exact Hacc.
  - apply IH, subscript_assign_sorted, Hacc.
Qed.
End MapInvariants.

(** ** Further properties: what a container decode yields *)

Section DecodeShape.
Context (plat : Platform) (E : Endian).

Lemma shr_vector_loop_length {T} `{Codec T} (todo : nat) :
  forall i (vv : list T) ss l rest,
    shr_vector_loop plat E todo i vv ss = Ok l rest ->
    length l = length vv.
Proof.
  induction todo as [|todo IH]; intros i vv ss l rest; simpl.
  - unfold ret. intros Hl. injection Hl as <- _. reflexivity.
  - unfold bind at 1.
    destruct (shr plat E (default init (vv !! i)) ss) as [x ss1|];
      [|discriminate].
    intros Hl. apply IH in Hl. rewrite Hl. apply length_insert.
Qed.

Lemma shr_map_loop_length {K V} `{Codec K, Codec V, Less K} (todo : nat) :
  forall p (acc : list (K * V)) ss l rest,
    shr_map_loop plat E todo p acc ss = Ok l rest ->
    (length l <= length acc + todo)%nat.
Proof.
  induction todo as [|todo IH]; intros p acc ss l rest; simpl.
  - unfold ret. intros Hl. injection Hl as <- _. lia.
  - unfold bind at 1.
    destruct (shr_pair plat E p ss) as [q ss1|]; [|discriminate].
    intros Hl. apply IH in Hl.
    pose proof (@subscript_assign_length K V _ q.1 q.2 acc). lia.
Qed.

Lemma shr_map_loop_sorted {K V} `{Codec K, Codec V, Less K}
    `{!StrictTotalOrder K} (todo : nat) :
  forall p (acc : list (K * V)) ss l rest,
    StronglySorted (fun a b : K * V => less a.1 b.1 = true) acc ->
    shr_map_loop plat E todo p acc ss = Ok l rest ->
    StronglySorted (fun a b : K * V => less a.1 b.1 = true) l.
Proof.
  induction todo as [|todo IH]; intros p acc ss l rest Hacc; simpl.
  - unfold ret. intros Hl. injection Hl as <- _. exact Hacc.
  - unfold bind at 1.
    destruct (shr_pair plat E p ss) as [q ss1|]; [|discriminate].
    apply IH, subscript_assign_sorted, Hacc.
Qed.

Lemma shr_map_loop_fold {K V} `{Codec K, Codec V, Less K}
    (xs : list (K * V)) :
  Forall (EntryRoundTrips plat E) xs ->
  forall p acc rest,
    shr_map_loop plat E (length xs) p acc
      (flat_map (wire plat E) xs ++ rest) =
    Ok (fold_left (fun m kv => subscript_assign kv.1 kv.2 m) xs acc) rest.
Proof.
  induction 1 as [|[k v] xs Hkv _ IH]; intros p acc rest; simpl.
  - reflexivity.
  - rewrite <- app_assoc.
    pose proof (proj2 (entry_roundtrips plat E _ Hkv) p) as Hp.
    change (shr plat E p) with (shr_pair plat E p) in Hp.
    erewrite bind_Ok by apply Hp. apply IH.
Qed.

(** X19: whatever bytes it is given, a map decode that returns returns a
    map whose entries are in strictly increasing key order, so with no two
    equivalent keys, also when the entries on the wire were unordered or
    repeated. *)
Theorem map_decode_sorted {K V} `{Codec K, Codec V, Less K}
    `{!StrictTotalOrder K} (dest mm : std_map K V) (ss rest : Stream) :
  shr plat E dest ss = Ok mm rest -> map_ok mm.
Proof.
  change (shr plat E dest) with (shr_map plat E dest).
  unfold shr_map. unfold bind at 1.
  destruct (shr_scalar plat E (size_t_n plat) ss) as [n ss1|]; [|discriminate].
  unfold bind.
  destruct (shr_map_loop plat E (nat_of_size plat n) (init, init)
              (clear (entries dest)) ss1) as [l ss2|] eqn:Hl; [|discriminate].
  intros Hmm. injection Hmm as <- _.
  unfold map_ok. simpl.
  eapply shr_map_loop_sorted; [|exact Hl]. constructor.
Qed.

(** X20: for entries whose keys and values each round-trip, and keys under
    a strict total order: decoding a count followed by that many entries, in
    any order and with keys repeated, gives the map in which every key
    carries the value of its last entry on the wire and no other key is
    present. *)
Theorem map_decode_last_wins {K V} `{Codec K, Codec V, Less K}
    `{!StrictTotalOrder K} (xs : list (K * V)) (dest : std_map K V)
    (rest : Stream) :
  fits_size_t plat (length xs) ->
  Forall (EntryRoundTrips plat E) xs ->
  exists mm,
    shr plat E dest
      (wire plat E (size_of_nat plat (length xs))
         ++ flat_map (wire plat E) xs ++ rest) = Ok mm rest /\
    map_ok mm /\
    forall k, find k (entries mm) = last_value k xs.
Proof.
  intros Hfit Hxs.
  exists (StdMap (fold_left (fun m kv => subscript_assign kv.1 kv.2 m) xs [])).
  split; [|split].
  - change (shr plat E dest) with (shr_map plat E dest).
    unfold shr_map.
    erewrite bind_Ok by (apply shr_size_run, Hfit).
    rewrite nat_of_size_of_nat.
    erewrite bind_Ok by (apply shr_map_loop_fold, Hxs). reflexivity.
  - unfold map_ok. simpl. apply fold_assign_sorted. constructor.
  - intros k. simpl. rewrite find_fold_assign.
    destruct (last_value k xs); reflexivity.
Qed.

(** X21: a vector decode that returns returns exactly as many elements as
    the count on the wire says. *)
Theorem vector_decode_count {T} `{Codec T} (n : nat) (dest vv : list T)
    (body rest : Stream) :
  fits_size_t plat n ->
  shr plat E dest (wire plat E (size_of_nat plat n) ++ body) = Ok vv rest ->
  length vv = n.
Proof.
  intros Hfit.
  change (shr plat E dest) with (shr_vector plat E dest).
  unfold shr_vector.
  erewrite bind_Ok by (apply shr_size_run, Hfit).
  rewrite nat_of_size_of_nat.
  intros Hl. apply shr_vector_loop_length in Hl.
  rewrite Hl. apply length_resize.
Qed.

(** X22: a map decode that returns returns at most as many entries as the
    count on the wire says; entries with equivalent keys collapse. *)
Theorem map_decode_count {K V} `{Codec K, Codec V, Less K} (n : nat)
    (dest mm : std_map K V) (body rest : Stream) :
  fits_size_t plat n ->
  shr plat E dest (wire plat E (size_of_nat plat n) ++ body) = Ok mm rest ->
  (length (entries mm) <= n)%nat.
Proof.
  intros Hfit.
  change (shr plat E dest) with (shr_map plat E dest).
  unfold shr_map.
  erewrite bind_Ok by (apply shr_size_run, Hfit).
  rewrite nat_of_size_of_nat. unfold bind.
  destruct (shr_map_loop plat E n (init, init) (clear (entries dest)) body)
    as [l ss2|] eqn:Hl; [|discriminate].
  intros Hmm. injection Hmm as <- _. simpl.
  apply shr_map_loop_length in Hl. simpl in Hl. exact Hl.
Qed.
End DecodeShape.

Lemma map_decode_sorted_witness :
  map_ok (StdMap [(Scalar (w := W1) 3, Scalar (w := W1) 2);
                  (Scalar 5, Scalar 1)]).
Proof.
  apply (map_decode_sorted
           {| BDF_SYSTEM_ENDIAN := BDF_LITTLE_ENDIAN; size_t := W1;
              NDEBUG := false |}
           BDF_LITTLE_ENDIAN (StdMap [])
           (StdMap [(Scalar (w := W1) 3, Scalar (w := W1) 2);
                    (Scalar 5, Scalar 1)])
           [Byte.x02; Byte.x05; Byte.x01; Byte.x03; Byte.x02] []).
  reflexivity.
Defined.

Lemma map_decode_last_wins_witness :
  let plat := {| BDF_SYSTEM_ENDIAN := BDF_LITTLE_ENDIAN; size_t := W8;
                 NDEBUG := false |} in
  let xs : list (scalar W1 * scalar W2) :=
    [(Scalar 5, Scalar 1); (Scalar 3, Scalar 2); (Scalar 5, Scalar 9)] in
  exists mm,
    shr plat BDF_BIG_ENDIAN (StdMap [(Scalar 8, Scalar 8)])
      (wire plat BDF_BIG_ENDIAN (size_of_nat plat (length xs))
         ++ flat_map (wire plat BDF_BIG_ENDIAN) xs ++ []) = Ok mm [] /\
    map_ok mm /\
    forall k, find k (entries mm) = last_value k xs.
Proof.
  intros plat xs.
  apply (map_decode_last_wins plat BDF_BIG_ENDIAN xs
           (StdMap [(Scalar 8, Scalar 8)]) []).
  - reflexivity.
  - repeat (apply List.Forall_cons;
            [split; apply scalar_roundtrips; unfold in_range; simpl; lia|]).
    apply List.Forall_nil.
Defined.

Lemma vector_decode_count_witness :
  length [Scalar (w := W1) 7; Scalar (w := W1) 8] = 2%nat.
Proof.
  apply (vector_decode_count
           {| BDF_SYSTEM_ENDIAN := BDF_LITTLE_ENDIAN; size_t := W2;
              NDEBUG := false |}
           BDF_BIG_ENDIAN 2 [Scalar 1] [Scalar 7; Scalar 8]
           [Byte.x07; Byte.x08; Byte.x09] [Byte.x09]).
  - reflexivity.
  - reflexivity.
Defined.

Lemma map_decode_count_witness :
  (length (entries (StdMap [(Scalar (w := W1) 5, Scalar (w := W1) 2)])) <= 2)%nat.
Proof.
  apply (map_decode_count
           {| BDF_SYSTEM_ENDIAN := BDF_LITTLE_ENDIAN; size_t := W2;
              NDEBUG := false |}
           BDF_BIG_ENDIAN 2 (StdMap [])
           (StdMap [(Scalar (w := W1) 5, Scalar (w := W1) 2)])
           [Byte.x05; Byte.x01; Byte.x05; Byte.x02] []).
  - reflexivity.
  - reflexivity.
Defined.

(** ** Further properties: decoding is one-to-one on vectors *)

Section VectorSound.
Context (plat : Platform) (E : Endian) {T : Type} `{Codec T}.

(** The element reader succeeds only on the encoding of what it returns. *)
Hypothesis element_sound :
  forall (d x : T) ss rest,
    shr plat E d ss = Ok x rest ->
    ss = wire plat E x ++ rest /\ RoundTrips plat E x.

Lemma shr_vector_loop_inv (todo : nat) :
  forall i (vv : list T) ss l rest,
    length vv = (i + todo)%nat ->
    shr_vector_loop plat E todo i vv ss = Ok l rest ->
    exists xs,
      l = take i vv ++ xs /\
      ss = flat_map (wire plat E) xs ++ rest /\
      Forall (RoundTrips plat E) xs.
Proof.
  induction todo as [|todo IH]; intros i vv ss l rest Hlen; simpl.
  - unfold ret. intros Hl. injection Hl as <- <-. exists [].
    rewrite take_ge by lia. rewrite app_nil_r. auto.
  - unfold bind at 1.
    destruct (shr plat E (default init (vv !! i)) ss) as [x ss1|] eqn:Hx;
      [|discriminate].
    apply element_sound in Hx as [Hss Hrt].
    intros Hl. apply IH in Hl; [|rewrite length_insert; lia].
    destruct Hl as (xs & Hl & Hss1 & Hxs).
    exists (x :: xs). split; [|split].
    + rewrite Hl.
      rewrite (take_S_r _ i x) by (apply list_lookup_insert_eq; lia).
      rewrite take_insert_ge by lia. rewrite <- app_assoc. reflexivity.
    + simpl. rewrite <- app_assoc, <- Hss1. exact Hss.
    + constructor; assumption.
Qed.

(** X23: for an element type whose reader succeeds only on the encoding of
    the value it returns, the same holds of the vector reader: a successful
    decode consumed exactly the count and element encodings of the vector it
    returns.  Distinct byte streams never decode to the same vector and
    remainder. *)
Theorem vector_decode_sound (dest vv : list T) (ss rest : Stream) :
  shr plat E dest ss = Ok vv rest ->
  ss = wire plat E vv ++ rest /\
  fits_size_t plat (length vv).
Proof.
  change (shr plat E dest) with (shr_vector plat E dest).
  unfold shr_vector. unfold bind at 1.
  destruct (shr_scalar plat E (size_t_n plat) ss) as [n ss1|] eqn:Hn;
    [|discriminate].
  apply shr_scalar_inv in Hn as [Hss Hr].
  intros Hl.
  pose proof (shr_vector_loop_length plat E _ _ _ _ _ _ Hl) as Hlen.
  rewrite length_resize in Hlen.
  apply shr_vector_loop_inv in Hl; [|rewrite length_resize; reflexivity].
  destruct Hl as (xs & Hvv & Hss1 & Hxs). simpl in Hvv. subst xs.
  rewrite wire_vector by exact Hxs.
  rewrite Hlen, size_of_nat_of_size by exact Hr.
  split; [|apply fits_nat_of_size, Hr].
  rewrite <- app_assoc, <- Hss1. exact Hss.
Qed.
End VectorSound.

Lemma vector_decode_sound_witness :
  let plat := {| BDF_SYSTEM_ENDIAN := BDF_LITTLE_ENDIAN; size_t := W2;
                 NDEBUG := false |} in
  let ss := [Byte.x00; Byte.x02; Byte.x07; Byte.x08; Byte.x09] in
  let vv : list (scalar W1) := [Scalar 7; Scalar 8] in
  ss = wire plat BDF_BIG_ENDIAN vv ++ [Byte.x09] /\
  fits_size_t plat (length vv).
Proof.
  intros plat ss vv.
  apply (vector_decode_sound plat BDF_BIG_ENDIAN) with (dest := [Scalar 1]).
  - intros d x ss0 rest0 Hx.
    change (shr plat BDF_BIG_ENDIAN d) with (shr_scalar plat BDF_BIG_ENDIAN d)
      in Hx.
    apply shr_scalar_inv in Hx as [Hss Hr].
    split; [exact Hss | apply scalar_roundtrips, Hr].
  - reflexivity.
Defined.

(** ** Further properties: the reader's operand *)

(** X25: [s >> x] works on the caller's object.  After the call the object
    at the operand's address holds the value the read returns, and every
    other object in memory is as it was. *)
Theorem read_stores_into_argument plat E w (a : nat) (mem : Memory)
    (old bs rest : list byte) (dest : scalar w) :
  length bs = sizeof w ->
  mem !! a = Some old ->
  length old = sizeof w ->
  exists mem' v,
    call_shr_scalar plat E w a mem (bs ++ rest) = Ok mem' rest /\
    shr plat E dest (bs ++ rest) = Ok v rest /\
    mem' !! a = Some (object_bytes plat v) /\
    forall b, b <> a -> mem' !! b = mem !! b.
Proof.
  intros Hbs Ha Hold.
  exists (Swapper_at (swap_enabled plat E) w a (<[a := bs]> mem)).
  eexists. split; [|split; [apply shr_scalar_run, Hbs | split]].
  - unfold call_shr_scalar. rewrite Ha. simpl.
    erewrite bind_Ok; [reflexivity|].
    rewrite <- Hbs. apply read_run.
    + rewrite Hbs. apply assert_sizeof.
    + congruence.
  - rewrite object_bytes_Swapper, object_bytes_of_object_bytes by exact Hbs.
    apply Swapper_at_lookup, lookup_insert_eq.
  - intros b Hb. unfold Swapper_at, swapBytes_at.
    destruct (swap_enabled plat E);
      rewrite ?lookup_alter_ne by congruence;
      apply lookup_insert_ne; congruence.
Qed.

Lemma read_stores_into_argument_witness :
  let plat := {| BDF_SYSTEM_ENDIAN := BDF_LITTLE_ENDIAN; size_t := W8;
                 NDEBUG := false |} in
  let mem : Memory := {[ 4%nat := [Byte.x00; Byte.x00] ]} in
  exists mem' v,
    call_shr_scalar plat BDF_BIG_ENDIAN W2 4 mem
      ([Byte.x12; Byte.x34] ++ []) = Ok mem' [] /\
    shr plat BDF_BIG_ENDIAN (Scalar (w := W2) 0)
      ([Byte.x12; Byte.x34] ++ []) = Ok v [] /\
    mem' !! 4%nat = Some (object_bytes plat v) /\
    forall b, b <> 4%nat -> mem' !! b = mem !! b.
Proof.
  intros plat mem.
  apply (read_stores_into_argument plat BDF_BIG_ENDIAN W2 4%nat mem
           [Byte.x00; Byte.x00] [Byte.x12; Byte.x34] [] (Scalar 0)).
  - reflexivity.
  - reflexivity.
  - reflexivity.
Defined.

(** ** The empty string inside containers *)

Lemma fits_size_t_small plat n : (n < 256)%nat -> fits_size_t plat n.
Proof.
  unfold fits_size_t. intros Hn. destruct (size_t plat); simpl; lia.
Qed.

Lemma shr_string_empty_asserts plat E (dest : std_string) rest :
  NDEBUG plat = false ->
  shr_string plat E dest (wire plat E (size_of_nat plat 0) ++ rest) =
  Err AssertionFailed.
Proof.
  intros Hnd. unfold shr_string.
  erewrite bind_Ok by (apply shr_size_run, fits_size_t_small; lia).
  rewrite nat_of_size_of_nat.
  apply bind_Err. unfold read. apply bind_Err.
  unfold assert. rewrite Hnd. reflexivity.
Qed.

Lemma wire_empty_string plat E :
  wire plat E (StdString []) = wire plat E (size_of_nat plat 0).
Proof. rewrite wire_string. simpl. apply app_nil_r. Qed.

Lemma shl_string_appends plat E (s : std_string) ss :
  shl plat E s ss = Ok tt (ss ++ wire plat E s).
Proof. rewrite wire_string. apply shl_string_run. Qed.

Lemma shl_pair_string_scalar plat E (s : std_string) w (v : scalar w) ss :
  shl_pair plat E (s, v) ss = Ok tt (ss ++ wire plat E s ++ wire plat E v).
Proof.
  unfold shl_pair. cbn [fst snd].
  erewrite bind_Ok by apply shl_string_appends.
  change (shl plat E v) with (shl_scalar plat E v).
  rewrite shl_scalar_run, wire_scalar, <- app_assoc. reflexivity.
Qed.

Lemma shl_vector_strings plat E (vv : list std_string) ss :
  shl_vector plat E vv ss =
  Ok tt (ss ++ wire plat E (size_of_nat plat (length vv))
            ++ flat_map (wire plat E) vv).
Proof.
  unfold shl_vector.
  erewrite bind_Ok by apply shl_size_run.
  rewrite (for_each_run _ (wire plat E)).
  - rewrite <- app_assoc. reflexivity.
  - apply Forall_true. intros s ss'. apply shl_string_appends.
Qed.

(** C3, at the empty string as key, with assertions compiled in: the count
    2, the pair [("", v1)] and the pair [("", v2)] are written without
    complaint, but the map reader's first [s >> p] reads the key's length 0
    and calls [read(&str[0], 0)], whose [assert(n>0)] fails.  No map with
    the key associated to [v2] is returned. *)
Theorem duplicate_empty_key_asserts (sys : Endian) (sz : Width) (E : Endian)
    (v1 v2 : scalar W4) (dest : std_map std_string (scalar W4)) :
  let build := {| BDF_SYSTEM_ENDIAN := sys; size_t := sz; NDEBUG := false |} in
  (shl_scalar build E (size_of_nat build 2) ;;
   shl_pair build E (StdString [], v1) ;;
   shl_pair build E (StdString [], v2) ;;
   shr build E dest) [] = Err AssertionFailed.
Proof.
  intros build.
  erewrite bind_Ok by apply shl_size_run.
  erewrite bind_Ok by apply shl_pair_string_scalar.
  erewrite bind_Ok by apply shl_pair_string_scalar.
  change (shr build E dest) with (shr_map build E dest).
  unfold shr_map. simpl app. rewrite <- !app_assoc.
  erewrite bind_Ok by (apply shr_size_run, fits_size_t_2).
  rewrite nat_of_size_of_nat.
  apply bind_Err. cbn [shr_map_loop]. apply bind_Err.
  unfold shr_pair. apply bind_Err. cbn [fst].
  change (shr build E init) with (shr_string build E (StdString [])).
  rewrite wire_empty_string.
  apply shr_string_empty_asserts. reflexivity.
Qed.

(** C7, at the vector of the strings "a" and "", with assertions compiled
    in: the vector is written as the count 2 and the two strings, the reader
    takes the count and the first string back, and on the second reads
    length 0 and calls [read(&str[0], 0)], whose [assert(n>0)] fails.  The
    vector does not come back. *)
Theorem vector_with_empty_string_asserts (sys : Endian) (sz : Width)
    (E : Endian) (dest : list std_string) :
  let build := {| BDF_SYSTEM_ENDIAN := sys; size_t := sz; NDEBUG := false |} in
  let vv := [StdString [Byte.x61]; StdString []] in
  shl build E vv [] =
    Ok tt (wire build E (size_of_nat build 2)
             ++ wire build E (StdString [Byte.x61])
             ++ wire build E (size_of_nat build 0)) /\
  encode_then_decode build E vv dest = Err AssertionFailed.
Proof.
  intros build vv.
  assert (Hw : shl build E vv [] =
               Ok tt (wire build E (size_of_nat build 2)
                        ++ wire build E (StdString [Byte.x61])
                        ++ wire build E (size_of_nat build 0))).
  { change (shl build E vv []) with (shl_vector build E vv []).
    rewrite shl_vector_strings. cbn [flat_map app length vv].
    rewrite wire_empty_string, app_nil_r. reflexivity. }
  split; [exact Hw|].
  unfold encode_then_decode.
  erewrite bind_Ok by exact Hw.
  change (shr build E dest) with (shr_vector build E dest).
  unfold shr_vector.
  erewrite bind_Ok by (apply shr_size_run, fits_size_t_2).
  rewrite nat_of_size_of_nat.
  cbn [shr_vector_loop].
  assert (Hfit1 : fits_size_t build (length (chars (StdString [Byte.x61])))).
  { apply fits_size_t_small. simpl. lia. }
  assert (Hne : NDEBUG build = true \/ chars (StdString [Byte.x61]) <> []).
  { right. discriminate. }
  pose proof (proj2 (string_roundtrips build E _ Hne Hfit1)) as Hrt.
  erewrite bind_Ok by apply Hrt.
  apply bind_Err.
  rewrite <- (app_nil_r (wire build E (size_of_nat build 0))).
  apply (shr_string_empty_asserts build E). reflexivity.
Qed.

(** ** The destination of a container read *)

Section TrackedAgrees.
Context (plat : Platform) (E : Endian).

Lemma shr_vector_loop_outcome_forget {T} `{Codec T} (todo : nat) :
  forall i (vv : list T) ss,
    forget (shr_vector_loop_outcome plat E todo i vv ss) =
    shr_vector_loop plat E todo i vv ss.
Proof.
  induction todo as [|todo IH]; intros i vv ss; simpl; [reflexivity|].
  unfold bind.
  destruct (shr plat E (default init (vv !! i)) ss); [apply IH | reflexivity].
Qed.

Lemma shr_vector_outcome_forget {T} `{Codec T} (vv : list T) ss :
  forget (shr_vector_outcome plat E vv ss) = shr plat E vv ss.
Proof.
  change (shr plat E vv ss) with (shr_vector plat E vv ss).
  unfold shr_vector_outcome, shr_vector, bind.
  destruct (shr_scalar plat E (size_t_n plat) ss); [|reflexivity].
  apply shr_vector_loop_outcome_forget.
Qed.

Lemma shr_map_loop_outcome_forget {K V} `{Codec K, Codec V, Less K}
    (todo : nat) :
  forall p (mm : list (K * V)) ss,
    forget (shr_map_loop_outcome plat E todo p mm ss) =
    (l <- shr_map_loop plat E todo p mm ;; ret (StdMap l)) ss.
Proof.
  induction todo as [|todo IH]; intros p mm ss; simpl; [reflexivity|].
  unfold bind at 1 2.
  destruct (shr_pair plat E p ss) as [q ss'|]; [|reflexivity].
  rewrite IH. reflexivity.
Qed.

Lemma shr_map_outcome_forget {K V} `{Codec K, Codec V, Less K}
    (mm : std_map K V) ss :
  forget (shr_map_outcome plat E mm ss) = shr plat E mm ss.
Proof.
  change (shr plat E mm ss) with (shr_map plat E mm ss).
  unfold shr_map_outcome, shr_map. unfold bind at 1.
  destruct (shr_scalar plat E (size_t_n plat) ss); [|reflexivity].
  apply shr_map_loop_outcome_forget.
Qed.
End TrackedAgrees.



